(** * Backward-chaining inference engine with unification (Task7.py)

    A shallow embedding of the classes [Term], [Clause], [KnowledgeBase],
    [Unification] and [BackwardsChainingEngine] of [Task7.py], followed by
    the properties of the engine that the specification states.

    Modelling conventions.
    - Names and raw arguments are Python [str] values of ASCII
      characters, represented by [string], one [ascii] for each character.
      A [str] with a character outside ASCII is outside the model: Python
      classifies such characters with the Unicode tables, which are not
      embedded, and the statement on the classification of names (C4) is
      restricted to ASCII names.
    - An element of [Term.args] is either a raw [str] (what [add_fact],
      [add_rule] and [query] store) or a [Term] object (what [substitute]
      inserts); [Arg] keeps the two apart, as [isinstance(arg, Term)] does.
    - A substitution is a Python [dict] from variable names to [Term]s,
      represented by [gmap string Term]; dictionaries are compared by
      content, so the order of insertion is not observable by the engine.
    - [unify], [prove] and [_prove_body] are general recursive; they take a
      [fuel] bounding the nesting of recursive calls and answer [Diverge]
      when it is exhausted. *)

From Stdlib Require Import Ascii Lia.
From stdpp Require Import base option list sorting strings gmap fin_maps pretty.

(** ** Python's [str.isupper] *)

Module PyStr.

(** The uppercase and the lowercase characters of ASCII: [A] to [Z] and
    [a] to [z].  No ASCII character is titlecase. *)
Definition is_upper_char (c : ascii) : bool :=
  let n := nat_of_ascii c in (65 <=? n)%nat && (n <=? 90)%nat.

Definition is_lower_char (c : ascii) : bool :=
  let n := nat_of_ascii c in (97 <=? n)%nat && (n <=? 122)%nat.

(** The characters of a string. *)
Fixpoint chars (s : string) : list ascii :=
  match s with
  | EmptyString => []
  | String c rest => c :: chars rest
  end.

(** The [str] has ASCII characters only ([str.isascii]). *)
Definition isascii (s : string) : bool :=
  forallb (fun c => (nat_of_ascii c <? 128)%nat) (chars s).

(** The scan of [str.isupper] on an ASCII [str]: a lowercase character
    answers [False] at once, an uppercase one sets the flag [cased], which
    is the answer at the end of the string.  The values above 127 of
    [ascii] stand for no character of an ASCII [str]; the scan passes over
    them, and nothing is stated about Python's answer on a [str] that is
    not ASCII. *)
Fixpoint isupper_from (cased : bool) (s : string) : bool :=
  match s with
  | EmptyString => cased
  | String c rest =>
      if is_lower_char c then false
      else isupper_from (cased || is_upper_char c) rest
  end.

Definition isupper (s : string) : bool := isupper_from false s.

(** [sep.join(parts)]. *)
Fixpoint join (sep : string) (parts : list string) : string :=
  match parts with
  | [] => ""
  | [p] => p
  | p :: rest => p +:+ sep +:+ join sep rest
  end.

(** [unit * n] for a string [unit]. *)
Fixpoint times (unit : string) (n : nat) : string :=
  match n with
  | 0 => ""
  | S k => unit +:+ times unit k
  end.

End PyStr.

Import PyStr.

(** ** Terms and clauses *)

(** [Term(name, args)].  The attribute [is_variable] is assigned once, in
    [__init__], from [name] alone and no method reassigns it; it is the
    function [is_variable] below. *)
Inductive Term : Type :=
| MkTerm (name : string) (args : list Arg)
with Arg : Type :=
| Raw (s : string)
| Obj (t : Term).

Definition name (t : Term) : string := match t with MkTerm n _ => n end.
Definition args (t : Term) : list Arg := match t with MkTerm _ a => a end.
Definition is_variable (t : Term) : bool := isupper (name t).

(** [Term(name)], with the default [args=None] turned into [[]]. *)
Definition Term1 (n : string) : Term := MkTerm n [].

(** [l1 == l2] on lists, element by element with [eqb]. *)
Fixpoint list_eqb {A : Type} (eqb : A -> A -> bool) (l1 l2 : list A) : bool :=
  match l1, l2 with
  | [], [] => true
  | x :: l1', y :: l2' => eqb x y && list_eqb eqb l1' l2'
  | _, _ => false
  end.

(** [Term.__eq__]: same name and element-wise equal argument lists.  A raw
    string is never equal to a [Term] object. *)
Fixpoint Term_eqb (t u : Term) {struct t} : bool :=
  match t, u with
  | MkTerm n a, MkTerm m b =>
      String.eqb n m &&
      list_eqb (fun x y =>
                  match x, y with
                  | Raw r, Raw r' => String.eqb r r'
                  | Obj t', Obj u' => Term_eqb t' u'
                  | _, _ => false
                  end) a b
  end.

(** [Term.__str__]. *)
Fixpoint str (t : Term) : string :=
  match t with
  | MkTerm n a =>
      match a with
      | [] => n
      | _ =>
          n +:+ "(" +:+
          join ", " (map (fun x => match x with Raw r => r | Obj u => str u end) a)
          +:+ ")"
      end
  end.

Record Clause : Type := MkClause { head : Term; body : list Term }.

Definition is_fact (c : Clause) : bool := Nat.eqb (length (body c)) 0.
Definition is_rule (c : Clause) : bool := Nat.ltb 0 (length (body c)).

(** [Clause.__str__]. *)
Definition Clause_str (c : Clause) : string :=
  if is_fact c then str (head c)
  else str (head c) +:+ " :- " +:+ join ", " (map str (body c)).

(** ** Knowledge base *)

(** [clauses] is the list of clauses in insertion order; [facts] is the
    set of cached ground facts, kept as a duplicate-free list. *)
Record KnowledgeBase : Type :=
  MkKB { clauses : list Clause; facts : list Term }.

Definition KnowledgeBase_init : KnowledgeBase := MkKB [] [].

Definition set_add (t : Term) (s : list Term) : list Term :=
  if existsb (Term_eqb t) s then s else s ++ [t].

(** [add_fact(predicate, *args)]: the arguments are stored as raw strings. *)
Definition add_fact (kb : KnowledgeBase) (predicate : string)
    (xs : list string) : KnowledgeBase :=
  let term := MkTerm predicate (map Raw xs) in
  let clause := MkClause term [] in
  let clauses' := clauses kb ++ [clause] in
  if negb (existsb isupper xs)
  then MkKB clauses' (set_add term (facts kb))
  else MkKB clauses' (facts kb).

(** [add_rule(head_pred, head_args, body_conditions)]. *)
Definition add_rule (kb : KnowledgeBase) (head_pred : string)
    (head_args : list string)
    (body_conditions : list (string * list string)) : KnowledgeBase :=
  let head := MkTerm head_pred (map Raw head_args) in
  let body := map (fun '(pred, xs) => MkTerm pred (map Raw xs)) body_conditions in
  MkKB (clauses kb ++ [MkClause head body]) (facts kb).

(** [get_matching_clauses(goal)]. *)
Definition get_matching_clauses (kb : KnowledgeBase) (goal : Term) : list Clause :=
  List.filter (fun clause =>
            String.eqb (name (head clause)) (name goal) &&
            Nat.eqb (length (args (head clause))) (length (args goal)))
         (clauses kb).

(** ** Unification *)

(** The outcome of a call: [Diverge] when the fuel runs out, [Raised] for
    an [IndexError] from [list.pop()] on an empty list (the only exception
    the engine could raise on strings), [Return a] when the call returns
    [a]. *)
Inductive Outcome (A : Type) : Type :=
| Diverge
| Raised
| Return (a : A).
Arguments Diverge {A}.
Arguments Raised {A}.
Arguments Return {A} a.

#[global] Instance Outcome_bind : MBind Outcome := fun A B k c =>
  match c with
  | Diverge => Diverge
  | Raised => Raised
  | Return a => k a
  end.

(** [Unification.substitute(term, substitution)]: one pass over the term.
    A bound variable is replaced by the object stored in the dictionary,
    which is returned as it is. *)
Fixpoint substitute (term : Term) (substitution : gmap string Term) : Term :=
  match term with
  | MkTerm n a =>
      match (if isupper n then substitution !! n else None) with
      | Some bound => bound
      | None =>
          match a with
          | [] => term
          | _ =>
              MkTerm n
                (map (fun arg =>
                        match arg with
                        | Obj t => Obj (substitute t substitution)
                        | Raw r =>
                            if isupper r then
                              match substitution !! r with
                              | Some bound => Obj bound
                              | None => Raw r
                              end
                            else Raw r
                        end) a)
          end
      end
  end.

(** [Term(arg) if not isinstance(arg, Term) else arg]. *)
Definition as_term (arg : Arg) : Term :=
  match arg with
  | Raw r => Term1 r
  | Obj t => t
  end.

(** [unify] updates the dictionary it is given in place and returns either
    that same dictionary or [None].  [dict] is the content of the
    dictionary when the call returns; [returned] tells whether the call
    returned it ([true]) or [None] ([false]). *)
Record Unified : Type := MkUnified { returned : bool; dict : gmap string Term }.

(** The [for arg1, arg2 in zip(...)] loop of [unify], over the recursive
    call [rec]. *)
Fixpoint unify_args (rec : Term -> Term -> gmap string Term -> Outcome Unified)
    (pairs : list (Arg * Arg)) (substitution : gmap string Term)
    : Outcome Unified :=
  match pairs with
  | [] => Return (MkUnified true substitution)
  | (arg1, arg2) :: rest =>
      r ← rec (as_term arg1) (as_term arg2) substitution;
      if returned r then unify_args rec rest (dict r)
      else Return r
  end.

(** [zip(l1, l2)]. *)
Fixpoint zip {A B : Type} (l1 : list A) (l2 : list B) : list (A * B) :=
  match l1, l2 with
  | x :: l1', y :: l2' => (x, y) :: zip l1' l2'
  | _, _ => []
  end.

(** [Unification.unify(term1, term2, substitution)]. *)
Fixpoint unify (fuel : nat) (term1 term2 : Term)
    (substitution : gmap string Term) : Outcome Unified :=
  match fuel with
  | 0 => Diverge
  | S fuel' =>
      let term1 := substitute term1 substitution in
      let term2 := substitute term2 substitution in
      if Term_eqb term1 term2 then Return (MkUnified true substitution)
      else if is_variable term1 then
        match substitution !! name term1 with
        | Some bound => unify fuel' bound term2 substitution
        | None => Return (MkUnified true (<[name term1 := term2]> substitution))
        end
      else if is_variable term2 then
        match substitution !! name term2 with
        | Some bound => unify fuel' term1 bound substitution
        | None => Return (MkUnified true (<[name term2 := term1]> substitution))
        end
      else if String.eqb (name term1) (name term2)
              && Nat.eqb (length (args term1)) (length (args term2)) then
        unify_args (unify fuel') (zip (args term1) (args term2)) substitution
      else Return (MkUnified false substitution)
  end.

(** The value a call of [unify] returns: the dictionary or [None]. *)
Definition unify_value (o : Outcome Unified) : Outcome (option (gmap string Term)) :=
  r ← o; Return (if returned r then Some (dict r) else None).

(** ** The engine *)

(** The argument of [tuple(sorted(substitution.items()))]: since the keys
    of a dictionary are distinct, sorting the items compares keys only. *)
Definition item_le (x y : string * Term) : Prop := String.le x.1 y.1.

#[global] Instance item_le_dec : RelDecision item_le.
Proof. intros x y. unfold item_le. apply _. Defined.

Definition snapshot (substitution : gmap string Term) : list (string * Term) :=
  merge_sort item_le (map_to_list substitution).

(** Equality of two snapshots, item by item. *)
Definition snapshot_eqb (s1 s2 : list (string * Term)) : bool :=
  list_eqb (fun x y => String.eqb x.1 y.1 && Term_eqb x.2 y.2) s1 s2.

Definition Entry : Type := Term * list (string * Term).

Definition Entry_eqb (e1 e2 : Entry) : bool :=
  Term_eqb e1.1 e2.1 && snapshot_eqb e1.2 e2.2.

Record Engine : Type :=
  MkEngine { kb : KnowledgeBase; trace : list string; call_stack : list Entry }.

(** [BackwardsChainingEngine(knowledge_base)]. *)
Definition Engine_init (knowledge_base : KnowledgeBase) : Engine :=
  MkEngine knowledge_base [] [].

(** [self.trace.append(line)]. *)
Definition log (line : string) (self : Engine) : Engine :=
  MkEngine (kb self) (trace self ++ [line]) (call_stack self).

(** [self.call_stack.append(entry)]. *)
Definition push (entry : Entry) (self : Engine) : Engine :=
  MkEngine (kb self) (trace self) (call_stack self ++ [entry]).

(** [self.call_stack.pop()], which raises on an empty list. *)
Definition pop (self : Engine) : Outcome Engine :=
  match call_stack self with
  | [] => Raised
  | _ => Return (MkEngine (kb self) (trace self) (removelast (call_stack self)))
  end.

(** [entry in self.call_stack]. *)
Definition in_call_stack (entry : Entry) (self : Engine) : bool :=
  existsb (fun e => Entry_eqb e entry) (call_stack self).

(** The loop [for arg in term.args] of [rename_term], over the recursive
    call [rename]; the dictionary [var_mapping] of the enclosing call of
    [_rename_variables] is threaded through. *)
Fixpoint rename_args
    (rename : Term -> gmap string string -> Term * gmap string string)
    (suffix : nat) (a : list Arg) (var_mapping : gmap string string)
    : list Arg * gmap string string :=
  match a with
  | [] => ([], var_mapping)
  | arg :: rest =>
      let '(new_arg, var_mapping) :=
        match arg with
        | Obj t =>
            let '(t', var_mapping) := rename t var_mapping in
            (Obj t', var_mapping)
        | Raw r =>
            if isupper r then
              match var_mapping !! r with
              | Some renamed => (Raw renamed, var_mapping)
              | None =>
                  let renamed := r +:+ "_" +:+ pretty suffix in
                  (Raw renamed, <[r := renamed]> var_mapping)
              end
            else (Raw r, var_mapping)
        end in
      let '(new_rest, var_mapping) := rename_args rename suffix rest var_mapping in
      (new_arg :: new_rest, var_mapping)
  end.

(** The inner function [rename_term] of [_rename_variables]. *)
Fixpoint rename_term (suffix : nat) (term : Term) (var_mapping : gmap string string)
    : Term * gmap string string :=
  match term with
  | MkTerm n a =>
      if isupper n then
        match var_mapping !! n with
        | Some renamed => (Term1 renamed, var_mapping)
        | None =>
            let renamed := n +:+ "_" +:+ pretty suffix in
            (Term1 renamed, <[n := renamed]> var_mapping)
        end
      else
        match a with
        | [] => (term, var_mapping)
        | _ =>
            let '(new_args, var_mapping) :=
              rename_args (fun t => rename_term suffix t) suffix a var_mapping in
            (MkTerm n new_args, var_mapping)
        end
  end.

(** The list comprehension [[rename_term(term) for term in clause.body]]. *)
Fixpoint rename_terms (suffix : nat) (terms : list Term)
    (var_mapping : gmap string string) : list Term * gmap string string :=
  match terms with
  | [] => ([], var_mapping)
  | term :: rest =>
      let '(term', var_mapping) := rename_term suffix term var_mapping in
      let '(rest', var_mapping) := rename_terms suffix rest var_mapping in
      (term' :: rest', var_mapping)
  end.

(** [_rename_variables(clause, suffix)]. *)
Definition _rename_variables (clause : Clause) (suffix : nat) : Clause :=
  let var_mapping : gmap string string := ∅ in
  let '(new_head, var_mapping) := rename_term suffix (head clause) var_mapping in
  let '(new_body, _) := rename_terms suffix (body clause) var_mapping in
  MkClause new_head new_body.

Definition Solutions : Type := list (gmap string Term).

Section Search.

(** The recursive call [self.prove]. *)
Variable prove_rec : Term -> gmap string Term -> nat -> Engine -> Outcome (Solutions * Engine).

(** The loop [for solution in first_solutions] of [_prove_body]. *)
Fixpoint for_solutions (step : gmap string Term -> Engine -> Outcome (Solutions * Engine))
    (first_solutions : Solutions) (solutions : Solutions) (self : Engine)
    : Outcome (Solutions * Engine) :=
  match first_solutions with
  | [] => Return (solutions, self)
  | solution :: rest =>
      '(remaining_solutions, self) ← step solution self;
      for_solutions step rest (solutions ++ remaining_solutions) self
  end.

(** [_prove_body(body_conditions, substitution, depth)]. *)
Fixpoint _prove_body (body_conditions : list Term) (substitution : gmap string Term)
    (depth : nat) (self : Engine) : Outcome (Solutions * Engine) :=
  match body_conditions with
  | [] => Return ([substitution], self)
  | first_condition :: remaining_conditions =>
      '(first_solutions, self) ← prove_rec first_condition substitution depth self;
      for_solutions (fun solution => _prove_body remaining_conditions solution depth)
        first_solutions [] self
  end.

(** The loop [for clause in matching_clauses] of [prove].  [unify] gets a
    copy of [substitution], so [substitution] itself stays as it is for
    the next clause. *)
Fixpoint for_clauses (fuel : nat) (goal : Term) (substitution : gmap string Term)
    (depth : nat) (indent goal_str : string) (matching_clauses : list Clause)
    (solutions : Solutions) (self : Engine) : Outcome (Solutions * Engine) :=
  match matching_clauses with
  | [] => Return (solutions, self)
  | clause :: rest =>
      let renamed_clause := _rename_variables clause depth in
      unified ← unify fuel goal (head renamed_clause) substitution;
      if returned unified then
        let unified_sub := dict unified in
        let self := log (indent +:+ "Unified with: " +:+ Clause_str renamed_clause) self in
        if is_fact renamed_clause then
          let self := log (indent +:+ "✓ Fact proven: " +:+ goal_str) self in
          for_clauses fuel goal substitution depth indent goal_str rest
            (solutions ++ [unified_sub]) self
        else
          let self := log (indent +:+ "Proving body conditions...") self in
          '(body_solutions, self) ← _prove_body (body renamed_clause) unified_sub (depth + 1) self;
          for_clauses fuel goal substitution depth indent goal_str rest
            (solutions ++ body_solutions) self
      else
        for_clauses fuel goal substitution depth indent goal_str rest solutions self
  end.

End Search.

(** [prove(goal, substitution, depth)]. *)
Fixpoint prove (fuel : nat) (goal : Term) (substitution : gmap string Term)
    (depth : nat) (self : Engine) : Outcome (Solutions * Engine) :=
  match fuel with
  | 0 => Diverge
  | S fuel' =>
      let indent := times "  " depth in
      let goal_str := str (substitute goal substitution) in
      let self := log (indent +:+ "Trying to prove: " +:+ goal_str) self in
      let entry := (goal, snapshot substitution) in
      if in_call_stack entry self then
        Return ([], log (indent +:+ "✗ Infinite recursion detected") self)
      else
        let self := push entry self in
        let matching_clauses := get_matching_clauses (kb self) goal in
        '(solutions, self) ← for_clauses (prove fuel') fuel' goal substitution depth indent goal_str
            matching_clauses [] self;
        self ← pop self;
        match solutions with
        | [] => Return (solutions, log (indent +:+ "✗ Cannot prove: " +:+ goal_str) self)
        | _ => Return (solutions, self)
        end
  end.

(** [query(predicate, *args)]: the result pair, and the engine after the
    call. *)
Definition query (fuel : nat) (self : Engine) (predicate : string) (xs : list string)
    : Outcome ((Solutions * list string) * Engine) :=
  let self := MkEngine (kb self) [] [] in
  let goal := MkTerm predicate (map Raw xs) in
  '(solutions, self) ← prove fuel goal ∅ 0 self;
  Return ((solutions, trace self), self).

(** ** Vocabulary of the statements *)

(** The first character of a name is an uppercase letter. *)
Definition leading_uppercase (s : string) : bool :=
  match s with
  | EmptyString => false
  | String c _ => is_upper_char c
  end.

(** [x in substitution]. *)
Definition is_bound (substitution : gmap string Term) (x : string) : bool :=
  match substitution !! x with
  | Some _ => true
  | None => false
  end.

(** No variable of the term, at the top or inside its arguments, has a
    binding in the substitution: applying the substitution again would
    change nothing. *)
Fixpoint fully_applied (substitution : gmap string Term) (t : Term) : bool :=
  match t with
  | MkTerm n a =>
      negb (isupper n && is_bound substitution n) &&
      forallb (fun arg =>
                 match arg with
                 | Raw r => negb (isupper r && is_bound substitution r)
                 | Obj u => fully_applied substitution u
                 end) a
  end.

(** The property of an argument that is a [Term] object. *)
Definition Arg_Forall (P : Term -> Prop) (x : Arg) : Prop :=
  match x with
  | Raw _ => True
  | Obj t => P t
  end.

(** The substitution [{X: Y, Y: a}], a chain of two bindings. *)
Definition chain_sub : gmap string Term :=
  <["Y" := Term1 "a"]> (<["X" := Term1 "Y"]> ∅).

(** The terms [f(X, a)] and [f(b, c)]: the first arguments unify, the
    second do not. *)
Definition half_left : Term := MkTerm "f" [Raw "X"; Raw "a"].
Definition half_right : Term := MkTerm "f" [Raw "b"; Raw "c"].

(** [after] was reached from [before] by appending lines to the trace,
    with the same knowledge base and the same call stack. *)
Definition extends (before after : Engine) : Prop :=
  kb after = kb before /\
  call_stack after = call_stack before /\
  trace before `prefix_of` trace after.

(** What a call of [prove] or [_prove_body] that started from
    [substitution] in state [self] may do: run out of fuel, or return
    solutions that contain [substitution], in a state that extends [self];
    [pop] does not raise in it. *)
Definition sound (substitution : gmap string Term) (self : Engine)
    (o : Outcome (Solutions * Engine)) : Prop :=
  match o with
  | Diverge => True
  | Raised => False
  | Return (solutions, self') =>
      Forall (fun solution => substitution ⊆ solution) solutions /\
      extends self self'
  end.

(** Two engines that agree on the clauses of their knowledge bases and on
    their call stacks, the trace of the first being that of the second
    after the lines [lines]. *)
Definition similar (lines : list string) (e1 e2 : Engine) : Prop :=
  clauses (kb e1) = clauses (kb e2) /\
  call_stack e1 = call_stack e2 /\
  trace e1 = lines ++ trace e2.

(** Two calls that end the same way, with the same solutions and in
    similar states. *)
Definition similar_outcome (lines : list string)
    (o1 o2 : Outcome (Solutions * Engine)) : Prop :=
  match o1, o2 with
  | Diverge, Diverge => True
  | Raised, Raised => True
  | Return (solutions1, e1), Return (solutions2, e2) =>
      solutions1 = solutions2 /\ similar lines e1 e2
  | _, _ => False
  end.

(** The value a call returns, without the state of the engine. *)
Definition value {A : Type} (o : Outcome (A * Engine)) : Outcome A :=
  '(a, _) ← o; Return a.

(** A sequence of queries on one engine, each given as a predicate and
    its arguments. *)
Fixpoint run_queries (fuel : nat) (queries : list (string * list string))
    (self : Engine) : Outcome Engine :=
  match queries with
  | [] => Return self
  | (predicate, xs) :: rest =>
      '(_, self) ← query fuel self predicate xs;
      run_queries fuel rest self
  end.

(** The knowledge base of the family example: two facts and one rule. *)
Definition family_kb : KnowledgeBase :=
  add_rule
    (add_fact (add_fact KnowledgeBase_init "parent" ["john"; "mary"])
       "parent" ["mary"; "alice"])
    "grandparent" ["X"; "Z"] [("parent", ["X"; "Y"]); ("parent", ["Y"; "Z"])].

(** A clause that [add_fact] builds from arguments none of which is a
    variable name. *)
Definition ground_fact (c : Clause) : Prop :=
  exists p xs, c = MkClause (MkTerm p (map Raw xs)) [] /\ existsb isupper xs = false.

(** The test of [get_matching_clauses]. *)
Definition matches (goal : Term) (clause : Clause) : bool :=
  String.eqb (name (head clause)) (name goal) &&
  Nat.eqb (length (args (head clause))) (length (args goal)).

(** The knowledge base with the single rule [loop(X) :- loop(X)]. *)
Definition loop_kb : KnowledgeBase :=
  add_rule KnowledgeBase_init "loop" ["X"] [("loop", ["X"])].

(** The name that [_rename_variables] gives to [X] at depth [d]. *)
Definition loop_var (d : nat) : string := "X" +:+ "_" +:+ pretty d.

(** The goal and the substitution of the call of [prove] at depth [d] of
    the query [loop(a)]. *)
Definition loop_goal (d : nat) : Term :=
  match d with
  | 0 => MkTerm "loop" [Raw "a"]
  | S k => MkTerm "loop" [Raw (loop_var k)]
  end.

Fixpoint loop_sub (d : nat) : gmap string Term :=
  match d with
  | 0 => ∅
  | S k => <[loop_var k := Term1 "a"]> (loop_sub k)
  end.

(** The call stack holds goals of smaller depths only. *)
Definition loop_stack (d : nat) (self : Engine) : Prop :=
  Forall (fun e : Entry => exists i, i < d /\ e.1 = loop_goal i) (call_stack self).


(** [s'] was obtained from [s] by binding names that had no binding and
    that are variable names. *)
Definition binds_variables (s s' : gmap string Term) : Prop :=
  s ⊆ s' /\ forall x, s !! x = None -> is_Some (s' !! x) -> isupper x = true.


(** The loop [for clause in self.clauses: if test(clause): print(...)] of
    [print_knowledge_base]: the lines it prints. *)
Fixpoint print_clauses (test : Clause -> bool) (cs : list Clause) : list string :=
  match cs with
  | [] => []
  | clause :: rest =>
      if test clause then ("  " +:+ Clause_str clause) :: print_clauses test rest
      else print_clauses test rest
  end.

(** [print_knowledge_base()]: the lines printed, in order. *)
Definition print_knowledge_base (kb : KnowledgeBase) : list string :=
  ["Knowledge Base:"; "Facts:"] ++ print_clauses is_fact (clauses kb) ++
  ["Rules:"] ++ print_clauses is_rule (clauses kb).

(** The knowledge bases that [KnowledgeBase()], [add_fact] and [add_rule]
    can build. *)
Inductive Built : KnowledgeBase -> Prop :=
| Built_init : Built KnowledgeBase_init
| Built_fact kb predicate xs : Built kb -> Built (add_fact kb predicate xs)
| Built_rule kb head_pred head_args body_conditions :
    Built kb -> Built (add_rule kb head_pred head_args body_conditions).

(** No name of the term, at the top or inside its arguments, is a
    variable name. *)
Fixpoint ground_term (t : Term) : bool :=
  match t with
  | MkTerm n a =>
      negb (isupper n) &&
      forallb (fun arg =>
                 match arg with
                 | Raw r => negb (isupper r)
                 | Obj u => ground_term u
                 end) a
  end.


(** [f"{name}_{suffix}"]. *)
Definition suffixed (suffix : nat) (n : string) : string :=
  n +:+ "_" +:+ pretty suffix.

(** The term in which every variable name carries the suffix: what
    [rename_term] computes when its dictionary only holds names with that
    suffix. *)
Fixpoint with_suffix (suffix : nat) (t : Term) : Term :=
  match t with
  | MkTerm n a =>
      if isupper n then Term1 (suffixed suffix n)
      else
        MkTerm n
          (map (fun arg =>
                  match arg with
                  | Raw r => if isupper r then Raw (suffixed suffix r) else Raw r
                  | Obj u => Obj (with_suffix suffix u)
                  end) a)
  end.

(** Every entry of the dictionary of [_rename_variables] maps a name to
    that name with the suffix. *)
Definition suffix_mapping (suffix : nat) (var_mapping : gmap string string) : Prop :=
  forall x renamed, var_mapping !! x = Some renamed -> renamed = suffixed suffix x.


(** The value stored for a variable: the entry of the substitution under
    the name, when the name is a variable name. *)
Definition stored_value (substitution : gmap string Term) (x : string) : option Term :=
  if isupper x then substitution !! x else None.

(** One pass of a substitution, in the words of the amended claim C2, for
    comparison with [substitute]: a term whose name is a variable with a
    stored value becomes that value, as it is stored; any other term keeps
    its name, and each of its arguments is treated on its own: a string
    that is a variable with a stored value becomes that value, as it is
    stored, a nested term is passed over in the same way, and any other
    string stays. *)
Definition apply_once_arg (pass : Term -> Term) (substitution : gmap string Term)
    (arg : Arg) : Arg :=
  match arg with
  | Obj nested => Obj (pass nested)
  | Raw r =>
      match stored_value substitution r with
      | Some stored => Obj stored
      | None => Raw r
      end
  end.

Fixpoint apply_once (substitution : gmap string Term) (t : Term) : Term :=
  match t with
  | MkTerm n a =>
      match stored_value substitution n with
      | Some stored => stored
      | None => MkTerm n (map (apply_once_arg (apply_once substitution) substitution) a)
      end
  end.

(** The stored values that one pass puts into the term, from left to
    right. *)
Fixpoint inserted_values (substitution : gmap string Term) (t : Term) : list Term :=
  match t with
  | MkTerm n a =>
      match stored_value substitution n with
      | Some stored => [stored]
      | None =>
          flat_map (fun arg =>
                      match arg with
                      | Obj nested => inserted_values substitution nested
                      | Raw r =>
                          match stored_value substitution r with
                          | Some stored => [stored]
                          | None => []
                          end
                      end) a
      end
  end.

(** ** The visit of the specification

    The search of the specification (section 4.4), written without an
    engine: a visit returns its solutions and the lines it logs, in the
    order of a depth-first, left-to-right visit; the call stack is the list
    of the goals under proof, from the query down to the caller. *)

(** The solutions and the lines of a visit. *)
Definition Visit : Type := Outcome (Solutions * list string).

(** The candidate after the others: solutions and lines are put one after
    the other. *)
Definition then_visit (first : Visit) (second : Visit) : Visit :=
  '(solutions1, lines1) ← first;
  '(solutions2, lines2) ← second;
  Return (solutions1 ++ solutions2, lines1 ++ lines2).

Section Visits.

(** The visit of a goal, for the recursive calls. *)
Variable visit_rec : list Entry -> Term -> gmap string Term -> nat -> Visit.

(** The remaining conditions under each solution of the first condition,
    from the first solution to the last. *)
Fixpoint visit_each (step : gmap string Term -> Visit) (first_solutions : Solutions) : Visit :=
  match first_solutions with
  | [] => Return ([], [])
  | solution :: rest => then_visit (step solution) (visit_each step rest)
  end.

(** The conjunction of the conditions of a body, from left to right. *)
Fixpoint visit_body (stack : list Entry) (conditions : list Term)
    (substitution : gmap string Term) (depth : nat) : Visit :=
  match conditions with
  | [] => Return ([substitution], [])
  | first :: remaining =>
      '(first_solutions, lines) ← visit_rec stack first substitution depth;
      then_visit (Return ([], lines))
        (visit_each (fun solution => visit_body stack remaining solution depth)
           first_solutions)
  end.

(** One candidate clause: renamed at the depth, its head unified with the
    goal; a fact gives the unified substitution, a rule the solutions of
    its body one level deeper; a clause that does not unify gives nothing
    and logs nothing. *)
Definition visit_clause (fuel : nat) (stack : list Entry) (goal : Term)
    (substitution : gmap string Term) (depth : nat) (clause : Clause) : Visit :=
  let indent := times "  " depth in
  let goal_str := str (substitute goal substitution) in
  let renamed := _rename_variables clause depth in
  unified ← unify fuel goal (head renamed) substitution;
  if returned unified then
    match body renamed with
    | [] =>
        Return ([dict unified],
                [indent +:+ "Unified with: " +:+ Clause_str renamed;
                 indent +:+ "✓ Fact proven: " +:+ goal_str])
    | _ =>
        then_visit
          (Return ([], [indent +:+ "Unified with: " +:+ Clause_str renamed;
                        indent +:+ "Proving body conditions..."]))
          (visit_body stack (body renamed) (dict unified) (depth + 1))
    end
  else Return ([], []).

(** The candidate clauses, in the order given. *)
Fixpoint visit_clauses (fuel : nat) (stack : list Entry) (goal : Term)
    (substitution : gmap string Term) (depth : nat) (candidates : list Clause) : Visit :=
  match candidates with
  | [] => Return ([], [])
  | clause :: rest =>
      then_visit (visit_clause fuel stack goal substitution depth clause)
        (visit_clauses fuel stack goal substitution depth rest)
  end.

End Visits.

(** The visit of a goal: the line of the attempt; then, when the goal with
    this substitution is on the call stack, the line of the guard and no
    solution; otherwise the candidates, which are the clauses with the name
    and the number of arguments of the goal in their order of insertion,
    under the call stack extended with the goal, and the line of failure
    when they give no solution. *)
Fixpoint visit_goal (fuel : nat) (inserted : list Clause) (stack : list Entry)
    (goal : Term) (substitution : gmap string Term) (depth : nat) : Visit :=
  match fuel with
  | 0 => Diverge
  | S fuel' =>
      let indent := times "  " depth in
      let goal_str := str (substitute goal substitution) in
      let attempt := indent +:+ "Trying to prove: " +:+ goal_str in
      let entry := (goal, snapshot substitution) in
      if existsb (fun e => Entry_eqb e entry) stack then
        Return ([], [attempt; indent +:+ "✗ Infinite recursion detected"])
      else
        let candidates :=
          List.filter (fun clause =>
                         String.eqb (name (head clause)) (name goal) &&
                         Nat.eqb (length (args (head clause))) (length (args goal)))
            inserted in
        '(solutions, lines) ←
          visit_clauses (visit_goal fuel' inserted) fuel' (stack ++ [entry])
            goal substitution depth candidates;
        Return (solutions,
                [attempt] ++ lines ++
                match solutions with
                | [] => [indent +:+ "✗ Cannot prove: " +:+ goal_str]
                | _ => []
                end)
  end.

(** The visit of a query: the goal built from the predicate and the
    arguments, under the empty substitution, at depth 0, with an empty
    call stack. *)
Definition visit_query (fuel : nat) (inserted : list Clause) (predicate : string)
    (xs : list string) : Visit :=
  visit_goal fuel inserted [] (MkTerm predicate (map Raw xs)) ∅ 0.

(** The outcome of a call that makes the visit [v] from the state [self]:
    the solutions, and [self] with the lines of the visit after its
    trace. *)
Definition logged (self : Engine) (solutions : Solutions) (v : Visit)
    : Outcome (Solutions * Engine) :=
  '(found, lines) ← v;
  Return (solutions ++ found, MkEngine (kb self) (trace self ++ lines) (call_stack self)).

(** ** The state machine and the temporal evaluators (LtlvsCtl.py)

    Positions in a path are natural numbers (the default [start_pos] is
    [0]); the set [visited] of the CTL evaluators is passed by value, each
    recursive call receiving a copy in the source. *)

Module LtlCtl.

(** How a call ends: [NoFuel] when the bound on nested calls is
    exhausted, [KeyError] for [self.states[state]] on a missing state,
    [Ok a] when it returns [a]. *)
Inductive Run (A : Type) : Type :=
| NoFuel
| KeyError
| Ok (a : A).
Arguments NoFuel {A}.
Arguments KeyError {A}.
Arguments Ok {A} a.

#[global] Instance Run_bind : MBind Run := fun A B k c =>
  match c with
  | NoFuel => NoFuel
  | KeyError => KeyError
  | Ok a => k a
  end.

Record State : Type := MkState { state_name : string; props : gset string }.

Record StateMachine : Type :=
  MkStateMachine {
    states : gmap string State;
    transitions : gmap string (list string);
    initial_state : option string
  }.

(** [StateMachine()]. *)
Definition StateMachine_init : StateMachine := MkStateMachine ∅ ∅ None.

(** [add_state(name, props)]. *)
Definition add_state (sm : StateMachine) (n : string) (ps : gset string) : StateMachine :=
  MkStateMachine
    (<[n := MkState n ps]> (states sm))
    (match transitions sm !! n with
     | Some _ => transitions sm
     | None => <[n := []]> (transitions sm)
     end)
    (initial_state sm).

(** [add_transition(from_state, to_state)]. *)
Definition add_transition (sm : StateMachine) (from_state to_state : string) : StateMachine :=
  let transitions' :=
    match transitions sm !! from_state with
    | Some _ => transitions sm
    | None => <[from_state := []]> (transitions sm)
    end in
  MkStateMachine
    (states sm)
    (match transitions' !! from_state with
     | Some successors => <[from_state := successors ++ [to_state]]> transitions'
     | None => transitions'
     end)
    (initial_state sm).

(** [set_initial(state)]. *)
Definition set_initial (sm : StateMachine) (state : string) : StateMachine :=
  MkStateMachine (states sm) (transitions sm) (Some state).

(** [get_successors(state)]: [self.transitions.get(state, [])]. *)
Definition get_successors (sm : StateMachine) (state : string) : list string :=
  match transitions sm !! state with
  | Some successors => successors
  | None => []
  end.

(** [has_prop(state, prop)]: [prop in self.states[state].props]. *)
Definition has_prop (sm : StateMachine) (state prop : string) : Run bool :=
  match states sm !! state with
  | Some st => Ok (bool_decide (prop ∈ props st))
  | None => KeyError
  end.

(** The loop of [eventually] over the states at positions
    [start_pos, ..., len(path) - 1]. *)
Fixpoint eventually_loop (sm : StateMachine) (rest : list string) (prop : string) : Run bool :=
  match rest with
  | [] => Ok false
  | state :: rest' =>
      b ← has_prop sm state prop;
      if (b : bool) then Ok true else eventually_loop sm rest' prop
  end.

(** [LTLEvaluator.eventually(path, prop, start_pos)]. *)
Definition eventually (sm : StateMachine) (path : list string) (prop : string)
    (start_pos : nat) : Run bool :=
  eventually_loop sm (drop start_pos path) prop.

(** The loop of [globally]. *)
Fixpoint globally_loop (sm : StateMachine) (rest : list string) (prop : string) : Run bool :=
  match rest with
  | [] => Ok true
  | state :: rest' =>
      b ← has_prop sm state prop;
      if negb b then Ok false else globally_loop sm rest' prop
  end.

(** [LTLEvaluator.globally(path, prop, start_pos)]. *)
Definition globally (sm : StateMachine) (path : list string) (prop : string)
    (start_pos : nat) : Run bool :=
  globally_loop sm (drop start_pos path) prop.

(** [LTLEvaluator.next_state(path, prop, pos)]. *)
Definition next_state (sm : StateMachine) (path : list string) (prop : string)
    (pos : nat) : Run bool :=
  if Nat.ltb (pos + 1) (length path) then
    match path !! (pos + 1) with
    | Some state => has_prop sm state prop
    | None => Ok false
    end
  else Ok false.

(** The loop of [until]. *)
Fixpoint until_loop (sm : StateMachine) (rest : list string) (prop1 prop2 : string) : Run bool :=
  match rest with
  | [] => Ok false
  | state :: rest' =>
      b2 ← has_prop sm state prop2;
      if (b2 : bool) then Ok true
      else
        b1 ← has_prop sm state prop1;
        if negb b1 then Ok false else until_loop sm rest' prop1 prop2
  end.

(** [LTLEvaluator.until(path, prop1, prop2, start_pos)]. *)
Definition until (sm : StateMachine) (path : list string) (prop1 prop2 : string)
    (start_pos : nat) : Run bool :=
  until_loop sm (drop start_pos path) prop1 prop2.

(** [for next_state in successors: if rec(next_state): return True]
    followed by [return False]. *)
Fixpoint some_successor (rec : string -> Run bool) (successors : list string) : Run bool :=
  match successors with
  | [] => Ok false
  | next :: rest =>
      b ← rec next;
      if (b : bool) then Ok true else some_successor rec rest
  end.

(** [for next_state in successors: if not rec(next_state): return False]
    followed by [return True]. *)
Fixpoint every_successor (rec : string -> Run bool) (successors : list string) : Run bool :=
  match successors with
  | [] => Ok true
  | next :: rest =>
      b ← rec next;
      if negb b then Ok false else every_successor rec rest
  end.

(** [CTLEvaluator.exists_eventually(state, prop, visited)]. *)
Fixpoint exists_eventually (fuel : nat) (sm : StateMachine) (state prop : string)
    (visited : gset string) : Run bool :=
  match fuel with
  | 0 => NoFuel
  | S fuel' =>
      if bool_decide (state ∈ visited) then Ok false
      else
        b ← has_prop sm state prop;
        if (b : bool) then Ok true
        else
          let visited := {[state]} ∪ visited in
          let successors := get_successors sm state in
          some_successor (fun next => exists_eventually fuel' sm next prop visited) successors
  end.

(** [CTLEvaluator.all_eventually(state, prop, visited)]. *)
Fixpoint all_eventually (fuel : nat) (sm : StateMachine) (state prop : string)
    (visited : gset string) : Run bool :=
  match fuel with
  | 0 => NoFuel
  | S fuel' =>
      if bool_decide (state ∈ visited) then Ok false
      else
        b ← has_prop sm state prop;
        if (b : bool) then Ok true
        else
          let successors := get_successors sm state in
          match successors with
          | [] => Ok false
          | _ =>
              let visited := {[state]} ∪ visited in
              every_successor (fun next => all_eventually fuel' sm next prop visited) successors
          end
  end.

(** [CTLEvaluator.all_globally(state, prop, visited)]. *)
Fixpoint all_globally (fuel : nat) (sm : StateMachine) (state prop : string)
    (visited : gset string) : Run bool :=
  match fuel with
  | 0 => NoFuel
  | S fuel' =>
      b ← has_prop sm state prop;
      if negb b then Ok false
      else if bool_decide (state ∈ visited) then Ok true
      else
        let visited := {[state]} ∪ visited in
        let successors := get_successors sm state in
        every_successor (fun next => all_globally fuel' sm next prop visited) successors
  end.

(** [CTLEvaluator.exists_globally(state, prop, visited)]. *)
Fixpoint exists_globally (fuel : nat) (sm : StateMachine) (state prop : string)
    (visited : gset string) : Run bool :=
  match fuel with
  | 0 => NoFuel
  | S fuel' =>
      b ← has_prop sm state prop;
      if negb b then Ok false
      else if bool_decide (state ∈ visited) then Ok true
      else
        let visited := {[state]} ∪ visited in
        let successors := get_successors sm state in
        some_successor (fun next => exists_globally fuel' sm next prop visited) successors
  end.

(** The request and response protocol of [create_example_system]. *)
Definition example_system : StateMachine :=
  let sm := StateMachine_init in
  let sm := add_state sm "idle" {["idle"]} in
  let sm := add_state sm "requesting" ({["req"]} ∪ {["active"]}) in
  let sm := add_state sm "processing" ({["req"]} ∪ {["active"]} ∪ {["busy"]}) in
  let sm := add_state sm "responding" ({["ack"]} ∪ {["active"]}) in
  let sm := add_state sm "error" {["error"]} in
  let sm := add_transition sm "idle" "requesting" in
  let sm := add_transition sm "requesting" "processing" in
  let sm := add_transition sm "requesting" "error" in
  let sm := add_transition sm "processing" "responding" in
  let sm := add_transition sm "responding" "idle" in
  let sm := add_transition sm "error" "idle" in
  set_initial sm "idle".

(** Two states that lead to each other, both with the proposition [p]. *)
Definition turn_system : StateMachine :=
  let sm := StateMachine_init in
  let sm := add_state sm "a" {["p"]} in
  let sm := add_state sm "b" {["p"]} in
  let sm := add_transition sm "a" "b" in
  add_transition sm "b" "a".

End LtlCtl.

(** * Properties *)

(** ** Strings *)

Lemma isupper_from_true_iff cased s :
  isupper_from cased s = true <->
  (cased = true \/ Exists (fun c => is_upper_char c = true) (chars s)) /\
  Forall (fun c => is_lower_char c = false) (chars s).
Proof.
  revert cased. induction s as [|c s IH]; intros cased; simpl.
  - rewrite Exists_nil. split; [intros ->; split; [by left | constructor] | intros [[H|[]] _]; exact H].
  - rewrite Forall_cons, Exists_cons. destruct (is_lower_char c) eqn:Hl.
    + split; [discriminate | intros [_ [? _]]; discriminate].
    + rewrite IH, orb_true_iff. tauto.
Qed.

Lemma isupper_true_iff s :
  isupper s = true <->
  Exists (fun c => is_upper_char c = true) (chars s) /\
  Forall (fun c => is_lower_char c = false) (chars s).
Proof.
  unfold isupper. rewrite isupper_from_true_iff.
  split; [intros [[?|?] ?]; [discriminate | done] | intros [? ?]; auto].
Qed.

(** ** Terms *)

Lemma Term_nested_ind (P : Term -> Prop) :
  (forall n a, Forall (Arg_Forall P) a -> P (MkTerm n a)) -> forall t, P t.
Proof.
  intros step. fix IH 1. intros [n a]. apply step.
  induction a as [|x a IHa]; constructor; [|exact IHa].
  destruct x as [r|t]; simpl; [exact I | apply IH].
Qed.

Lemma list_eqb_eq {A : Type} (eqb : A -> A -> bool) (l1 l2 : list A) :
  Forall (fun x => forall y, eqb x y = true <-> x = y) l1 ->
  list_eqb eqb l1 l2 = true <-> l1 = l2.
Proof.
  intros H. revert l2. induction H as [|x l1 Hx _ IH]; intros [|y l2]; simpl; try easy.
  rewrite andb_true_iff, Hx, IH. split; [intros [-> ->]; done | intros [= -> ->]; done].
Qed.

Lemma Term_eqb_eq t u : Term_eqb t u = true <-> t = u.
Proof.
  revert u. induction t as [n a IH] using Term_nested_ind. intros [m b]. simpl.
  rewrite andb_true_iff, String.eqb_eq, list_eqb_eq.
  - split; [intros [-> ->]; done | intros [= -> ->]; done].
  - eapply Forall_impl; [exact IH|]. intros [r|t] Ht [r'|u]; simpl in *; try easy.
    + rewrite String.eqb_eq. split; congruence.
    + rewrite Ht. split; congruence.
Qed.

Lemma Term_eqb_refl t : Term_eqb t t = true.
Proof. by apply Term_eqb_eq. Qed.

Lemma Term_eqb_neq t u : t <> u -> Term_eqb t u = false.
Proof.
  intros H. destruct (Term_eqb t u) eqn:E; [|done].
  by apply Term_eqb_eq in E.
Qed.

(** ** Classification of names (C4) *)

(** C4, as stated, fails: the name [Xy] starts with an uppercase letter and
    is not a variable, and the name [_X] does not start with one and is a
    variable. *)
Lemma C4_leading_uppercase_counterexample :
  ~ (forall n a, is_variable (MkTerm n a) = leading_uppercase n).
Proof. intros H. specialize (H "Xy" []). vm_compute in H. discriminate. Qed.

(** C4, amended: for a name of ASCII characters, [Term(name, args)] is a
    variable exactly when [name] contains an uppercase letter and no
    lowercase letter (Python's [str.isupper] on ASCII), whatever its
    first character is; the classification is a function of the name
    alone: the arguments do not change it. *)
Theorem C4_is_variable_isupper n a :
  isascii n = true ->
  (is_variable (MkTerm n a) = true <->
   Exists (fun c => is_upper_char c = true) (chars n) /\
   Forall (fun c => is_lower_char c = false) (chars n)) /\
  (forall a', is_variable (MkTerm n a') = is_variable (MkTerm n a)).
Proof.
  intros _. split; [|done]. unfold is_variable. simpl. apply isupper_true_iff.
Qed.

Lemma C4_is_variable_isupper_witness :
  isascii "X_0" = true /\
  is_variable (MkTerm "X_0" [Raw "a"]) = true /\
  Exists (fun c => is_upper_char c = true) (chars "X_0") /\
  Forall (fun c => is_lower_char c = false) (chars "X_0").
Proof.
  split; [reflexivity|]. split; [reflexivity|].
  apply (proj1 (C4_is_variable_isupper "X_0" [Raw "a"] eq_refl)). reflexivity.
Defined.

(** ** Substitution (C2) *)

Lemma substitute_bound n a s bound :
  isupper n = true -> s !! n = Some bound -> substitute (MkTerm n a) s = bound.
Proof. intros Hn Hs. destruct a; simpl; by rewrite Hn, Hs. Qed.

Lemma substitute_not_variable n a s :
  isupper n = false ->
  substitute (MkTerm n a) s =
  MkTerm n (map (fun arg =>
                   match arg with
                   | Obj t => Obj (substitute t s)
                   | Raw r =>
                       if isupper r then
                         match s !! r with
                         | Some bound => Obj bound
                         | None => Raw r
                         end
                       else Raw r
                   end) a).
Proof. intros Hn. destruct a; simpl; by rewrite Hn. Qed.

Lemma substitute_unbound n a s :
  s !! n = None ->
  substitute (MkTerm n a) s =
  MkTerm n (map (fun arg =>
                   match arg with
                   | Obj t => Obj (substitute t s)
                   | Raw r =>
                       if isupper r then
                         match s !! r with
                         | Some bound => Obj bound
                         | None => Raw r
                         end
                       else Raw r
                   end) a).
Proof. intros Hn. destruct a; simpl; rewrite Hn; by destruct (isupper n). Qed.

Lemma substitute_name t s :
  is_variable t = false -> name (substitute t s) = name t.
Proof.
  destruct t as [n a]. unfold is_variable. intros Hn. simpl in Hn.
  by rewrite substitute_not_variable.
Qed.

Lemma substitute_arity t s :
  is_variable t = false -> length (args (substitute t s)) = length (args t).
Proof.
  destruct t as [n a]. unfold is_variable. intros Hn. simpl in Hn.
  rewrite substitute_not_variable by done. simpl. by rewrite length_map.
Qed.

(** C2, as stated, fails: under [{X: Y, Y: a}] the variable [X] is replaced
    by [Y], one step along the chain, and [Y] is still bound. *)
Lemma C2_chain_counterexample :
  substitute (Term1 "X") chain_sub = Term1 "Y" /\
  fully_applied chain_sub (substitute (Term1 "X") chain_sub) = false /\
  fully_applied chain_sub (substitute (MkTerm "f" [Raw "X"]) chain_sub) = false.
Proof. vm_compute. done. Qed.

(** The body of [unify], for rewriting. *)
Lemma unify_unfold fuel t1 t2 s :
  unify (S fuel) t1 t2 s =
  let term1 := substitute t1 s in
  let term2 := substitute t2 s in
  if Term_eqb term1 term2 then Return (MkUnified true s)
  else if is_variable term1 then
    match s !! name term1 with
    | Some bound => unify fuel bound term2 s
    | None => Return (MkUnified true (<[name term1 := term2]> s))
    end
  else if is_variable term2 then
    match s !! name term2 with
    | Some bound => unify fuel term1 bound s
    | None => Return (MkUnified true (<[name term2 := term1]> s))
    end
  else if String.eqb (name term1) (name term2)
          && Nat.eqb (length (args term1)) (length (args term2)) then
    unify_args (unify fuel) (zip (args term1) (args term2)) s
  else Return (MkUnified false s).
Proof. reflexivity. Qed.

Lemma substitute_apply_once s t : substitute t s = apply_once s t.
Proof.
  induction t as [n a IH] using Term_nested_ind.
  cbn [apply_once]. unfold stored_value at 1.
  destruct (isupper n) eqn:Hn.
  - destruct (s !! n) as [bound|] eqn:Hs.
    + by apply substitute_bound.
    + rewrite substitute_unbound by done. f_equal.
      apply map_ext_Forall. eapply Forall_impl; [exact IH|].
      intros [r|u]; cbn [Arg_Forall apply_once_arg]; unfold stored_value;
        [intros _; by destruct (isupper r) | by intros ->].
  - rewrite substitute_not_variable by done. f_equal.
    apply map_ext_Forall. eapply Forall_impl; [exact IH|].
    intros [r|u]; cbn [Arg_Forall apply_once_arg]; unfold stored_value;
        [intros _; by destruct (isupper r) | by intros ->].
Qed.

Lemma fully_applied_unstored s x :
  stored_value s x = None -> negb (isupper x && is_bound s x) = true.
Proof.
  unfold stored_value, is_bound. destruct (isupper x); [|done]. by intros ->.
Qed.

Lemma fully_applied_apply_once s t :
  fully_applied s (apply_once s t) = forallb (fully_applied s) (inserted_values s t).
Proof.
  induction t as [n a IH] using Term_nested_ind.
  cbn [apply_once inserted_values].
  destruct (stored_value s n) as [stored|] eqn:Hn.
  - cbn [forallb]. by rewrite andb_true_r.
  - cbn [fully_applied]. rewrite fully_applied_unstored by done. cbn [andb].
    induction IH as [|x a Hx _ IHa]; [done|].
    cbn [map forallb flat_map]. rewrite forallb_app, IHa. f_equal.
    destruct x as [r|u]; cbn [apply_once_arg Arg_Forall] in *; [|done].
    destruct (stored_value s r) as [stored|] eqn:Hr.
    + cbn [forallb]. by rewrite andb_true_r.
    + by rewrite fully_applied_unstored.
Qed.

Lemma stored_value_elem s x stored :
  stored_value s x = Some stored -> s !! x = Some stored.
Proof. unfold stored_value. by destruct (isupper x). Qed.

Lemma inserted_values_stored s t stored :
  stored ∈ inserted_values s t -> exists x, s !! x = Some stored.
Proof.
  induction t as [n a IH] using Term_nested_ind. cbn [inserted_values].
  destruct (stored_value s n) as [v|] eqn:Hn.
  - intros ->%list_elem_of_singleton. eauto using stored_value_elem.
  - intros Hin. apply list_elem_of_In, in_flat_map in Hin as (x & Hx & Hin).
    apply list_elem_of_In in Hx, Hin. rewrite Forall_forall in IH. specialize (IH x Hx).
    destruct x as [r|u]; cbn [Arg_Forall] in IH; [|by apply IH].
    destruct (stored_value s r) as [v|] eqn:Hr; [|by apply elem_of_nil in Hin].
    apply list_elem_of_singleton in Hin as ->. eauto using stored_value_elem.
Qed.

(** C2, amended: step 1 of [unify] makes one pass over each of the two
    terms.  (1) The pass is [apply_once]: a variable with a stored value,
    at the top or as an argument at any depth, is replaced by the value
    stored for it, as it is stored, and nothing else changes.  (2) The
    result is fully resolved exactly when every stored value that the
    pass put in contains no bound variable, (3) which is the case when
    no stored value of the substitution contains one.  (4, 5) When the
    pass leaves a variable that is still bound, as it does at the first
    link of a chain of bindings, and the two results differ, [unify]
    calls itself with the value stored for that variable in place of the
    term, and this call makes the next pass. *)
Theorem C2_substitute_one_pass s :
  (forall t, substitute t s = apply_once s t) /\
  (forall t, fully_applied s (substitute t s) =
             forallb (fully_applied s) (inserted_values s t)) /\
  ((forall x stored, s !! x = Some stored -> fully_applied s stored = true) ->
   forall t, fully_applied s (substitute t s) = true) /\
  (forall fuel t1 t2 stored,
      Term_eqb (substitute t1 s) (substitute t2 s) = false ->
      is_variable (substitute t1 s) = true ->
      s !! name (substitute t1 s) = Some stored ->
      unify (S fuel) t1 t2 s = unify fuel stored (substitute t2 s) s) /\
  (forall fuel t1 t2 stored,
      Term_eqb (substitute t1 s) (substitute t2 s) = false ->
      is_variable (substitute t1 s) = false ->
      is_variable (substitute t2 s) = true ->
      s !! name (substitute t2 s) = Some stored ->
      unify (S fuel) t1 t2 s = unify fuel (substitute t1 s) stored s).
Proof.
  split_and!.
  - apply substitute_apply_once.
  - intros t. rewrite substitute_apply_once. apply fully_applied_apply_once.
  - intros Hrange t. rewrite substitute_apply_once, fully_applied_apply_once.
    apply forallb_forall. intros stored [x Hx]%list_elem_of_In%inserted_values_stored.
    by eapply Hrange.
  - intros fuel t1 t2 stored Hne Hvar Hs. rewrite unify_unfold. cbv zeta.
    by rewrite Hne, Hvar, Hs.
  - intros fuel t1 t2 stored Hne Hvar1 Hvar2 Hs. rewrite unify_unfold. cbv zeta.
    by rewrite Hne, Hvar1, Hvar2, Hs.
Qed.

Lemma C2_substitute_one_pass_witness :
  substitute (MkTerm "f" [Raw "X"; Obj (MkTerm "g" [Raw "Y"; Raw "b"])]) chain_sub =
    MkTerm "f" [Obj (Term1 "Y"); Obj (MkTerm "g" [Obj (Term1 "a"); Raw "b"])] /\
  fully_applied chain_sub
    (substitute (MkTerm "f" [Raw "X"; Obj (MkTerm "g" [Raw "Y"; Raw "b"])]) chain_sub) = false /\
  fully_applied (<["X" := Term1 "a"]> ∅)
    (substitute (MkTerm "f" [Raw "X"; Obj (MkTerm "g" [Raw "X"])]) (<["X" := Term1 "a"]> ∅)) = true /\
  unify 2 (Term1 "X") (Term1 "a") chain_sub =
    unify 1 (Term1 "a") (substitute (Term1 "a") chain_sub) chain_sub /\
  unify 2 (Term1 "X") (Term1 "a") chain_sub = Return (MkUnified true chain_sub).
Proof.
  pose proof (C2_substitute_one_pass chain_sub) as (Hpass & Hexact & _ & Hleft & _).
  pose proof (C2_substitute_one_pass (<["X" := Term1 "a"]> ∅)) as (_ & _ & Hrange & _).
  split_and!.
  - rewrite Hpass. vm_compute. reflexivity.
  - rewrite Hexact. vm_compute. reflexivity.
  - apply Hrange. intros x stored H.
    destruct (decide (x = "X")) as [->|Hne].
    + rewrite lookup_insert_eq in H. injection H as <-. reflexivity.
    + rewrite lookup_insert_ne, lookup_empty in H by done. discriminate.
  - apply Hleft; vm_compute; reflexivity.
  - rewrite (Hleft 1 (Term1 "X") (Term1 "a") (Term1 "a")) by (vm_compute; reflexivity).
    vm_compute. reflexivity.
Defined.

(** ** The outcome monad *)

Lemma bind_Return {A B : Type} (a : A) (k : A -> Outcome B) :
  (Return a ≫= k) = k a.
Proof. reflexivity. Qed.

Lemma bind_Return_inv {A B : Type} (c : Outcome A) (k : A -> Outcome B) (b : B) :
  (c ≫= k) = Return b -> exists a, c = Return a /\ k a = Return b.
Proof. destruct c as [| |a]; try discriminate. intros H. by exists a. Qed.

Lemma bind_Diverge {A B : Type} (k : A -> Outcome B) :
  (Diverge ≫= k) = Diverge.
Proof. reflexivity. Qed.

(** ** Unification *)

Section UnifyArgs.

Variable rec : Term -> Term -> gmap string Term -> Outcome Unified.

Lemma unify_args_app pre post s s1 :
  unify_args rec pre s = Return (MkUnified true s1) ->
  unify_args rec (pre ++ post) s = unify_args rec post s1.
Proof.
  revert s. induction pre as [|[x y] pre IH]; intros s; simpl.
  - by intros [= ->].
  - intros [r [Hr H]]%bind_Return_inv. rewrite Hr, bind_Return.
    destruct (returned r) eqn:E; [by apply IH | injection H as ->; discriminate].
Qed.

Lemma unify_args_failing x y post s s2 :
  rec (as_term x) (as_term y) s = Return (MkUnified false s2) ->
  unify_args rec ((x, y) :: post) s = Return (MkUnified false s2).
Proof. intros H. simpl. by rewrite H. Qed.

Hypothesis rec_grows :
  forall t u s r, rec t u s = Return r -> s ⊆ dict r.

Lemma unify_args_grows pairs s r :
  unify_args rec pairs s = Return r -> s ⊆ dict r.
Proof.
  revert s. induction pairs as [|[x y] pairs IH]; intros s; simpl.
  - by intros [= <-].
  - intros [r' [Hr' H]]%bind_Return_inv. apply rec_grows in Hr'.
    destruct (returned r').
    + etrans; [exact Hr' | by apply IH].
    + by injection H as <-.
Qed.

End UnifyArgs.

(** [unify] only adds bindings to the dictionary it is given, for names
    that had none. *)
Lemma unify_grows fuel t u s r :
  unify fuel t u s = Return r -> s ⊆ dict r.
Proof.
  revert t u s r. induction fuel as [|fuel IH]; intros t u s r; simpl; [discriminate|].
  destruct (Term_eqb _ _); [by intros [= <-]|].
  destruct (is_variable (substitute t s)).
  { destruct (s !! name (substitute t s)) eqn:Hs; [by apply IH|].
    intros [= <-]. simpl. by apply insert_subseteq. }
  destruct (is_variable (substitute u s)).
  { destruct (s !! name (substitute u s)) eqn:Hs; [by apply IH|].
    intros [= <-]. simpl. by apply insert_subseteq. }
  destruct (_ && _); [|by intros [= <-]].
  by apply unify_args_grows.
Qed.

Lemma unify_same fuel t s :
  unify (S fuel) t t s = Return (MkUnified true s).
Proof. simpl. by rewrite Term_eqb_refl. Qed.

Lemma unify_args_same fuel a s :
  unify_args (unify (S fuel)) (zip a a) s = Return (MkUnified true s).
Proof.
  induction a as [|x a IH]; [done|].
  cbn [zip unify_args]. by rewrite unify_same, bind_Return.
Qed.

Lemma zip_app_inv {A : Type} (a b : list A) pre x y post :
  zip a b = pre ++ (x, y) :: post ->
  a = b -> x = y /\ pre = zip (pre.*1) (pre.*1).
Proof.
  intros H <-. revert pre H. induction a as [|z a IH]; intros [|[p q] pre]; simpl; try easy.
  - intros [= -> ->]. done.
  - intros [= -> -> H]. destruct (IH _ H) as [-> Hp]. split; [done|].
    cbn. f_equal. exact Hp.
Qed.

(** ** Failure of compound unification (C5, C3) *)

(** C5, as stated, fails: [P(a)] and [q(b, c)] differ in functor and in
    arity, and [unify] succeeds, binding [P], because a term whose name is
    uppercase is a variable whether or not it has arguments. *)
Lemma C5_uppercase_functor_counterexample :
  unify 3 (MkTerm "P" [Raw "a"]) (MkTerm "q" [Raw "b"; Raw "c"]) ∅ =
  Return (MkUnified true (<["P" := MkTerm "q" [Raw "b"; Raw "c"]]> ∅)).
Proof. reflexivity. Qed.

Lemma unify_mismatch fuel t1 t2 s :
  is_variable t1 = false ->
  is_variable t2 = false ->
  name t1 <> name t2 \/ length (args t1) <> length (args t2) ->
  unify (S fuel) t1 t2 s = Return (MkUnified false s).
Proof.
  intros H1 H2 Hdiff. rewrite unify_unfold. cbv zeta.
  pose proof (substitute_name t1 s H1) as Hn1.
  pose proof (substitute_name t2 s H2) as Hn2.
  pose proof (substitute_arity t1 s H1) as Ha1.
  pose proof (substitute_arity t2 s H2) as Ha2.
  assert (Hv1 : is_variable (substitute t1 s) = false) by (unfold is_variable; by rewrite Hn1).
  assert (Hv2 : is_variable (substitute t2 s) = false) by (unfold is_variable; by rewrite Hn2).
  rewrite Hv1, Hv2, Hn1, Hn2, Ha1, Ha2.
  rewrite Term_eqb_neq.
  - destruct Hdiff as [Hd|Hd].
    + apply String.eqb_neq in Hd. by rewrite Hd.
    + apply Nat.eqb_neq in Hd. by rewrite Hd, andb_false_r.
  - intros Heq. destruct Hdiff as [Hd|Hd]; apply Hd; congruence.
Qed.

(** C5, amended: two terms whose names are not variable names and that
    differ in name or in number of arguments never unify, whatever the
    substitution holds; the dictionary is left as it was. *)
Theorem C5_functor_or_arity_mismatch fuel t1 t2 s :
  is_variable t1 = false ->
  is_variable t2 = false ->
  name t1 <> name t2 \/ length (args t1) <> length (args t2) ->
  unify (S fuel) t1 t2 s = Return (MkUnified false s).
Proof. apply unify_mismatch. Qed.

Lemma C5_functor_or_arity_mismatch_witness :
  unify 1 (MkTerm "f" [Raw "X"]) (MkTerm "f" [Raw "a"; Raw "b"]) chain_sub =
  Return (MkUnified false chain_sub).
Proof.
  apply C5_functor_or_arity_mismatch; [reflexivity | reflexivity | right; simpl; lia].
Defined.

(** C3, as stated, fails: unifying [f(X, a)] with [f(b, c)] in an empty
    dictionary fails at the second pair of arguments, and the dictionary
    then holds the binding of [X] made for the first pair. *)
Lemma C3_partial_binding_counterexample :
  unify 3 half_left half_right ∅ =
  Return (MkUnified false (<["X" := Term1 "b"]> ∅)) /\
  (<["X" := Term1 "b"]> ∅ : gmap string Term) <> ∅.
Proof.
  split; [reflexivity|]. intros H.
  apply (f_equal (fun m : gmap string Term => m !! "X")) in H.
  rewrite lookup_insert_eq, lookup_empty in H. discriminate.
Qed.

(** C3, amended: for two compound terms with the same non-variable functor
    and the same number of arguments, when the arguments before some pair
    unify, giving [s1], and that pair fails, leaving [s2], the whole call
    returns failure; the dictionary passed in is not restored: it holds
    [s2], which contains the bindings made for the earlier pairs.  (A caller
    that needs its substitution intact passes a copy, as [prove] does.) *)
Theorem C3_compound_failure fuel f a1 a2 s pre x y post s1 s2 :
  isupper f = false ->
  length a1 = length a2 ->
  zip (args (substitute (MkTerm f a1) s)) (args (substitute (MkTerm f a2) s)) =
    pre ++ (x, y) :: post ->
  unify_args (unify fuel) pre s = Return (MkUnified true s1) ->
  unify fuel (as_term x) (as_term y) s1 = Return (MkUnified false s2) ->
  unify (S fuel) (MkTerm f a1) (MkTerm f a2) s = Return (MkUnified false s2) /\
  s ⊆ s1 /\ s1 ⊆ s2.
Proof.
  intros Hf Hlen Hzip Hpre Hfail.
  assert (Hv : forall a, is_variable (MkTerm f a) = false) by (intros a; exact Hf).
  split; [|split].
  - rewrite unify_unfold. cbv zeta.
    assert (Hne : Term_eqb (substitute (MkTerm f a1) s) (substitute (MkTerm f a2) s) = false).
    { destruct (Term_eqb _ _) eqn:E; [|done]. apply Term_eqb_eq in E.
      destruct fuel as [|fuel]; [discriminate|].
      destruct (zip_app_inv _ _ _ _ _ _ Hzip (f_equal args E)) as [-> Hp].
      revert Hp Hpre. generalize (pre.*1). intros l ->.
      rewrite unify_args_same. intros [= <-].
      rewrite unify_same in Hfail. discriminate. }
    rewrite Hne.
    assert (Hv1 : is_variable (substitute (MkTerm f a1) s) = false)
      by (unfold is_variable; by rewrite substitute_name).
    assert (Hv2 : is_variable (substitute (MkTerm f a2) s) = false)
      by (unfold is_variable; by rewrite substitute_name).
    rewrite Hv1, Hv2, !substitute_name, !substitute_arity by done.
    cbn [name args]. rewrite String.eqb_refl, Hlen, Nat.eqb_refl. cbn [andb].
    rewrite Hzip, (unify_args_app _ _ _ _ _ Hpre).
    by apply unify_args_failing.
  - pose proof (unify_args_grows (unify fuel) (unify_grows fuel) _ _ _ Hpre) as H. exact H.
  - pose proof (unify_grows _ _ _ _ _ Hfail) as H. exact H.
Qed.

Lemma C3_compound_failure_witness :
  unify 3 half_left half_right ∅ = Return (MkUnified false (<["X" := Term1 "b"]> ∅)) /\
  (∅ : gmap string Term) ⊆ <["X" := Term1 "b"]> ∅ /\
  (<["X" := Term1 "b"]> ∅ : gmap string Term) ⊆ <["X" := Term1 "b"]> ∅.
Proof.
  apply (C3_compound_failure 2 "f" [Raw "X"; Raw "a"] [Raw "b"; Raw "c"] ∅
           [(Raw "X", Raw "b")] (Raw "a") (Raw "c") []);
    reflexivity.
Defined.


(** ** Invariants of the search (C8, C9) *)

Lemma unify_args_not_raised rec pairs s :
  (forall t u s', rec t u s' <> Raised) -> unify_args rec pairs s <> Raised.
Proof.
  intros Hrec. revert s. induction pairs as [|[x y] pairs IH]; intros s; simpl; [done|].
  destruct (rec (as_term x) (as_term y) s) as [| |r] eqn:Hr; [done | by apply Hrec in Hr |].
  rewrite bind_Return. destruct (returned r); [apply IH | done].
Qed.

Lemma unify_not_raised fuel t u s : unify fuel t u s <> Raised.
Proof.
  revert t u s. induction fuel as [|fuel IH]; intros t u s; [done|].
  rewrite unify_unfold. cbv zeta.
  repeat (case_match; try done); by apply unify_args_not_raised.
Qed.

#[local] Instance extends_refl : Reflexive extends.
Proof. intros e. by repeat split. Qed.

#[local] Instance extends_trans : Transitive extends.
Proof.
  intros e1 e2 e3 (Hk1 & Hc1 & Ht1) (Hk2 & Hc2 & Ht2).
  repeat split; [congruence | congruence | by etrans].
Qed.

Lemma extends_log line self : extends self (log line self).
Proof. repeat split. simpl. by apply prefix_app_r. Qed.

Lemma sound_extends s self self' o :
  extends self self' -> sound s self' o -> sound s self o.
Proof.
  intros He. destruct o as [| |[sols e]]; simpl; try done.
  intros [Hs He']. split; [done | by etrans].
Qed.

Lemma sound_weaken s s' self o :
  s ⊆ s' -> sound s' self o -> sound s self o.
Proof.
  intros Hs. destruct o as [| |[sols e]]; simpl; try done.
  intros [Hsols He]. split; [|done].
  eapply Forall_impl; [exact Hsols|]. intros sol ?. by etrans.
Qed.

Section SearchSound.

Variable prove_rec : Term -> gmap string Term -> nat -> Engine -> Outcome (Solutions * Engine).

Hypothesis prove_rec_sound :
  forall goal s depth self, sound s self (prove_rec goal s depth self).

Lemma for_solutions_sound step s first_solutions solutions self :
  (forall solution e, sound solution e (step solution e)) ->
  Forall (fun solution => s ⊆ solution) first_solutions ->
  Forall (fun solution => s ⊆ solution) solutions ->
  sound s self (for_solutions step first_solutions solutions self).
Proof.
  intros Hstep Hfirst. revert solutions self.
  induction Hfirst as [|sol rest Hsol _ IH]; intros solutions self Hacc; simpl; [done|].
  specialize (Hstep sol self).
  destruct (step sol self) as [| |[r e]]; try done.
  rewrite bind_Return. destruct Hstep as [Hr He].
  eapply sound_extends; [exact He|]. apply IH.
  apply Forall_app. split; [done|].
  eapply Forall_impl; [exact Hr|]. intros ? ?. by etrans.
Qed.

Lemma _prove_body_sound body s depth self :
  sound s self (_prove_body prove_rec body s depth self).
Proof.
  revert s self. induction body as [|first remaining IH]; intros s self; simpl.
  - split; [by repeat constructor | done].
  - pose proof (prove_rec_sound first s depth self) as Hfirst.
    destruct (prove_rec first s depth self) as [| |[first_solutions e]]; try done.
    rewrite bind_Return. destruct Hfirst as [Hsols He].
    eapply sound_extends; [exact He|].
    apply for_solutions_sound; [by intros; apply IH | done | constructor].
Qed.

Lemma for_clauses_sound fuel goal s depth indent goal_str matching solutions self :
  Forall (fun solution => s ⊆ solution) solutions ->
  sound s self
    (for_clauses prove_rec fuel goal s depth indent goal_str matching solutions self).
Proof.
  revert solutions self.
  induction matching as [|clause rest IH]; intros solutions self Hacc; simpl; [done|].
  destruct (unify fuel goal (head (_rename_variables clause depth)) s) as [| |u] eqn:Hu;
    [done | by apply unify_not_raised in Hu |].
  rewrite bind_Return. apply unify_grows in Hu.
  destruct (returned u); [|by apply IH].
  destruct (is_fact _).
  - eapply sound_extends; [|apply IH].
    + etrans; apply extends_log.
    + apply Forall_app. split; [done | by repeat constructor].
  - match goal with
    | |- context [_prove_body _ ?b ?s' ?d ?e] =>
        pose proof (_prove_body_sound b s' d e) as Hbody;
        destruct (_prove_body prove_rec b s' d e) as [| |[body_solutions e']]
    end; try done.
    rewrite bind_Return. destruct Hbody as [Hsols He].
    eapply sound_extends; [|apply IH].
    + etrans; [|exact He]. etrans; apply extends_log.
    + apply Forall_app. split; [done|].
      eapply Forall_impl; [exact Hsols|]. intros ? ?. by etrans.
Qed.

End SearchSound.

Lemma prove_unfold fuel goal s depth self :
  prove (S fuel) goal s depth self =
  let indent := times "  " depth in
  let goal_str := str (substitute goal s) in
  let self := log (indent +:+ "Trying to prove: " +:+ goal_str) self in
  let entry := (goal, snapshot s) in
  if in_call_stack entry self then
    Return ([], log (indent +:+ "✗ Infinite recursion detected") self)
  else
    let self := push entry self in
    let matching_clauses := get_matching_clauses (kb self) goal in
    '(solutions, self) ←
      for_clauses (prove fuel) fuel goal s depth indent goal_str
        matching_clauses [] self;
    self ← pop self;
    match solutions with
    | [] => Return (solutions, log (indent +:+ "✗ Cannot prove: " +:+ goal_str) self)
    | _ => Return (solutions, self)
    end.
Proof. reflexivity. Qed.

Lemma pop_push entry self self' :
  extends (push entry self) self' ->
  pop self' = Return (MkEngine (kb self') (trace self') (call_stack self)).
Proof.
  intros (_ & Hc & _). unfold pop. rewrite Hc. simpl.
  rewrite removelast_last. by destruct (call_stack self).
Qed.

(** In a call of [prove], [pop] does not raise; when the call returns,
    every solution contains the substitution it started from, and the
    engine has its knowledge base and its call stack as before, and a
    longer trace. *)
Lemma prove_sound fuel goal s depth self :
  sound s self (prove fuel goal s depth self).
Proof.
  revert goal s depth self. induction fuel as [|fuel IH]; intros goal s depth self; [done|].
  rewrite prove_unfold. cbv zeta.
  set (indent := times "  " depth). set (goal_str := str (substitute goal s)).
  set (e1 := log (indent +:+ "Trying to prove: " +:+ goal_str) self).
  destruct (in_call_stack _ e1).
  { split; [constructor|]. etrans; apply extends_log. }
  set (e2 := push (goal, snapshot s) e1).
  pose proof (for_clauses_sound (prove fuel) IH fuel goal s depth indent goal_str
                (get_matching_clauses (kb e2) goal) [] e2 (Forall_nil_2 _)) as Hloop.
  destruct (for_clauses _ _ _ _ _ _ _ _ _ _) as [| |[solutions e3]]; try done.
  rewrite bind_Return. destruct Hloop as [Hsols He].
  rewrite (pop_push _ _ _ He), bind_Return.
  destruct He as (Hk & _ & Ht).
  assert (Hext : extends self (MkEngine (kb e3) (trace e3) (call_stack e1))).
  { repeat split; simpl; [done|]. etrans; [|exact Ht]. simpl. by apply prefix_app_r. }
  destruct solutions; (split; [done|]); [|done].
  etrans; [exact Hext | apply extends_log].
Qed.

(** ** Independence from the prior trace and from the fact cache (C7, C10) *)

Lemma similar_log lines line e1 e2 :
  similar lines e1 e2 -> similar lines (log line e1) (log line e2).
Proof.
  intros (Hk & Hc & Ht). repeat split; simpl; [done | done |].
  by rewrite Ht, (assoc_L (++)).
Qed.

Lemma similar_push lines entry e1 e2 :
  similar lines e1 e2 -> similar lines (push entry e1) (push entry e2).
Proof. intros (Hk & Hc & Ht). repeat split; simpl; [done | by rewrite Hc | done]. Qed.

Lemma similar_pop lines e1 e2 :
  similar lines e1 e2 ->
  match pop e1, pop e2 with
  | Return e1', Return e2' => similar lines e1' e2'
  | Raised, Raised => True
  | _, _ => False
  end.
Proof.
  intros (Hk & Hc & Ht). unfold pop. rewrite Hc.
  destruct (call_stack e2); [done|]. by repeat split.
Qed.

Lemma similar_in_call_stack lines entry e1 e2 :
  similar lines e1 e2 -> in_call_stack entry e1 = in_call_stack entry e2.
Proof. intros (_ & Hc & _). unfold in_call_stack. by rewrite Hc. Qed.

Lemma similar_matching lines goal e1 e2 :
  similar lines e1 e2 ->
  get_matching_clauses (kb e1) goal = get_matching_clauses (kb e2) goal.
Proof. intros (Hk & _ & _). unfold get_matching_clauses. by rewrite Hk. Qed.

Section SearchSimilar.

Variable lines : list string.
Variables rec1 rec2 : Term -> gmap string Term -> nat -> Engine -> Outcome (Solutions * Engine).

Hypothesis rec_similar :
  forall goal s depth e1 e2,
    similar lines e1 e2 ->
    similar_outcome lines (rec1 goal s depth e1) (rec2 goal s depth e2).

Lemma for_solutions_similar step1 step2 first_solutions solutions e1 e2 :
  (forall solution e1 e2,
      similar lines e1 e2 -> similar_outcome lines (step1 solution e1) (step2 solution e2)) ->
  similar lines e1 e2 ->
  similar_outcome lines
    (for_solutions step1 first_solutions solutions e1)
    (for_solutions step2 first_solutions solutions e2).
Proof.
  intros Hstep. revert solutions e1 e2.
  induction first_solutions as [|sol rest IH]; intros solutions e1 e2 He; simpl; [done|].
  specialize (Hstep sol e1 e2 He).
  destruct (step1 sol e1) as [| |[r1 e1']], (step2 sol e2) as [| |[r2 e2']]; try done.
  rewrite !bind_Return. destruct Hstep as [-> He']. by apply IH.
Qed.

Lemma _prove_body_similar body s depth e1 e2 :
  similar lines e1 e2 ->
  similar_outcome lines (_prove_body rec1 body s depth e1) (_prove_body rec2 body s depth e2).
Proof.
  revert s e1 e2. induction body as [|first remaining IH]; intros s e1 e2 He; simpl; [done|].
  pose proof (rec_similar first s depth e1 e2 He) as Hfirst.
  destruct (rec1 first s depth e1) as [| |[r1 e1']],
           (rec2 first s depth e2) as [| |[r2 e2']]; try done.
  rewrite !bind_Return. destruct Hfirst as [-> He'].
  apply for_solutions_similar; [|done]. intros; by apply IH.
Qed.

Lemma for_clauses_similar fuel goal s depth indent goal_str matching solutions e1 e2 :
  similar lines e1 e2 ->
  similar_outcome lines
    (for_clauses rec1 fuel goal s depth indent goal_str matching solutions e1)
    (for_clauses rec2 fuel goal s depth indent goal_str matching solutions e2).
Proof.
  revert solutions e1 e2.
  induction matching as [|clause rest IH]; intros solutions e1 e2 He; simpl; [done|].
  destruct (unify fuel goal (head (_rename_variables clause depth)) s) as [| |u];
    [done | done |].
  rewrite !bind_Return.
  destruct (returned u); [|by apply IH].
  destruct (is_fact _).
  - apply IH. by do 2 apply similar_log.
  - match goal with
    | |- context [_prove_body rec1 ?b ?s' ?d (log ?l1 (log ?l2 e1))] =>
        pose proof (_prove_body_similar b s' d (log l1 (log l2 e1)) (log l1 (log l2 e2))
                      (similar_log _ _ _ _ (similar_log _ _ _ _ He))) as Hbody;
        destruct (_prove_body rec1 b s' d (log l1 (log l2 e1))) as [| |[r1 e1']],
                 (_prove_body rec2 b s' d (log l1 (log l2 e2))) as [| |[r2 e2']]
    end; try done.
    rewrite !bind_Return. destruct Hbody as [-> He']. by apply IH.
Qed.

End SearchSimilar.

(** The search looks at the clauses and at the call stack only: it ends
    the same way from two similar states. *)
Lemma prove_similar lines fuel goal s depth e1 e2 :
  similar lines e1 e2 ->
  similar_outcome lines (prove fuel goal s depth e1) (prove fuel goal s depth e2).
Proof.
  revert goal s depth e1 e2.
  induction fuel as [|fuel IH]; intros goal s depth e1 e2 He; [done|].
  rewrite !prove_unfold. cbv zeta.
  set (indent := times "  " depth). set (goal_str := str (substitute goal s)).
  set (line := indent +:+ "Trying to prove: " +:+ goal_str).
  pose proof (similar_log _ line _ _ He) as He1.
  rewrite (similar_in_call_stack _ _ _ _ He1).
  destruct (in_call_stack _ (log line e2)).
  { split; [done | by apply similar_log]. }
  pose proof (similar_push _ (goal, snapshot s) _ _ He1) as He2.
  rewrite (similar_matching _ goal _ _ He2).
  pose proof (for_clauses_similar lines (prove fuel) (prove fuel) IH fuel goal s depth
                indent goal_str (get_matching_clauses (kb (push (goal, snapshot s) (log line e2))) goal)
                [] _ _ He2) as Hloop.
  destruct (for_clauses _ _ _ _ _ _ _ _ _ (push _ (log line e1))) as [| |[r1 e1']],
           (for_clauses _ _ _ _ _ _ _ _ _ (push _ (log line e2))) as [| |[r2 e2']]; try done.
  rewrite !bind_Return. destruct Hloop as [-> He3].
  pose proof (similar_pop _ _ _ He3) as Hpop.
  destruct (pop e1') as [| |e1''], (pop e2') as [| |e2'']; try done.
  rewrite !bind_Return.
  destruct r2; (split; [done|]); [by apply similar_log | done].
Qed.

Lemma query_unfold fuel self predicate xs :
  query fuel self predicate xs =
  '(solutions, self') ← prove fuel (MkTerm predicate (map Raw xs)) ∅ 0
                          (MkEngine (kb self) [] []);
  Return ((solutions, trace self'), self').
Proof. reflexivity. Qed.

(** [query] reads the knowledge base of the engine only: the trace and the
    call stack it finds are discarded. *)
Lemma query_isolated fuel e1 e2 predicate xs :
  kb e1 = kb e2 -> query fuel e1 predicate xs = query fuel e2 predicate xs.
Proof. intros H. rewrite !query_unfold. by rewrite H. Qed.

Lemma query_kb fuel self predicate xs result self' :
  query fuel self predicate xs = Return (result, self') -> kb self' = kb self.
Proof.
  rewrite query_unfold.
  pose proof (prove_sound fuel (MkTerm predicate (map Raw xs)) ∅ 0 (MkEngine (kb self) [] []))
    as Hsound.
  destruct (prove _ _ _ _ _) as [| |[solutions e]]; try done.
  rewrite bind_Return. intros [= _ <-]. by destruct Hsound as (_ & Hk & _).
Qed.

Lemma run_queries_kb fuel queries self self' :
  run_queries fuel queries self = Return self' -> kb self' = kb self.
Proof.
  revert self. induction queries as [|[predicate xs] rest IH]; intros self; simpl.
  - by intros [= <-].
  - intros [[result e] [Hq Hrest]]%bind_Return_inv.
    apply query_kb in Hq. apply IH in Hrest. congruence.
Qed.

(** ** The order of the visit (C7) *)

Lemma logged_Return self solutions found lines :
  logged self solutions (Return (found, lines)) =
  Return (solutions ++ found, MkEngine (kb self) (trace self ++ lines) (call_stack self)).
Proof. reflexivity. Qed.

Lemma logged_log line self solutions v :
  logged (log line self) solutions v =
  logged self solutions (then_visit (Return ([], [line])) v).
Proof.
  destruct v as [| |[found lines]]; try done.
  unfold logged, then_visit. rewrite !bind_Return. cbn [kb trace call_stack log app].
  by rewrite <- (assoc_L (++)).
Qed.

Lemma then_visit_assoc v1 v2 v3 :
  then_visit (then_visit v1 v2) v3 = then_visit v1 (then_visit v2 v3).
Proof.
  destruct v1 as [| |[s1 l1]]; try done.
  destruct v2 as [| |[s2 l2]]; try done.
  destruct v3 as [| |[s3 l3]]; try done.
  unfold then_visit. rewrite !bind_Return. by rewrite !(assoc_L (++)).
Qed.

Lemma then_visit_nil v : then_visit (Return ([], [])) v = v.
Proof. by destruct v as [| |[s l]]. Qed.

Lemma logged_then self solutions found lines v :
  logged self solutions (then_visit (Return (found, lines)) v) =
  logged (MkEngine (kb self) (trace self ++ lines) (call_stack self)) (solutions ++ found) v.
Proof.
  destruct v as [| |[s l]]; try done.
  unfold logged, then_visit. rewrite !bind_Return. cbn [kb trace call_stack].
  by rewrite !(assoc_L (++)).
Qed.

Section SearchVisits.

Variable inserted : list Clause.
Variable prove_rec : Term -> gmap string Term -> nat -> Engine -> Outcome (Solutions * Engine).
Variable visit_rec : list Entry -> Term -> gmap string Term -> nat -> Visit.

Hypothesis rec_visits :
  forall goal s depth self,
    clauses (kb self) = inserted ->
    prove_rec goal s depth self = logged self [] (visit_rec (call_stack self) goal s depth).

Lemma for_solutions_visits stack step vstep first_solutions solutions self :
  (forall solution e,
      clauses (kb e) = inserted -> call_stack e = stack ->
      step solution e = logged e [] (vstep solution)) ->
  clauses (kb self) = inserted -> call_stack self = stack ->
  for_solutions step first_solutions solutions self =
  logged self solutions (visit_each vstep first_solutions).
Proof.
  intros Hstep. revert solutions self.
  induction first_solutions as [|sol rest IH]; intros solutions self Hkb Hst;
    cbn [for_solutions visit_each].
  - rewrite logged_Return, !app_nil_r. by destruct self.
  - rewrite Hstep by done. destruct (vstep sol) as [| |[found lines]]; try done.
    rewrite logged_Return, bind_Return, IH, logged_then by done. reflexivity.
Qed.

Lemma _prove_body_visits stack body s depth self :
  clauses (kb self) = inserted -> call_stack self = stack ->
  _prove_body prove_rec body s depth self =
  logged self [] (visit_body visit_rec stack body s depth).
Proof.
  revert s self. induction body as [|first remaining IH]; intros s self Hkb Hst;
    cbn [_prove_body visit_body].
  - rewrite logged_Return, app_nil_r. by destruct self.
  - rewrite rec_visits, Hst by done.
    destruct (visit_rec stack first s depth) as [| |[first_solutions lines]]; try done.
    rewrite logged_Return, !bind_Return, logged_then. cbn [app].
    apply (for_solutions_visits stack); [|done..]. intros solution e He He'. by apply IH.
Qed.

Lemma for_clauses_visits stack fuel goal s depth matching solutions self :
  clauses (kb self) = inserted -> call_stack self = stack ->
  for_clauses prove_rec fuel goal s depth (times "  " depth) (str (substitute goal s))
    matching solutions self =
  logged self solutions (visit_clauses visit_rec fuel stack goal s depth matching).
Proof.
  revert solutions self.
  induction matching as [|clause rest IH]; intros solutions self Hkb Hst;
    cbn [for_clauses visit_clauses].
  - rewrite logged_Return, !app_nil_r. by destruct self.
  - unfold visit_clause. cbv zeta.
    destruct (unify fuel goal (head (_rename_variables clause depth)) s) as [| |u]; try done.
    rewrite !bind_Return. destruct (returned u).
    + unfold is_fact. destruct (body (_rename_variables clause depth)) as [|b bs] eqn:Hb.
      * cbn [length Nat.eqb]. rewrite IH by done.
        destruct (visit_clauses visit_rec fuel stack goal s depth rest)
          as [| |[found lines]]; try done.
        unfold then_visit. rewrite !bind_Return, !logged_Return.
        cbn [kb trace call_stack log app]. by rewrite <- !(assoc_L (++)).
      * cbn [length Nat.eqb]. rewrite (_prove_body_visits stack) by done.
        destruct (visit_body visit_rec stack (b :: bs) (dict u) (depth + 1))
          as [| |[found lines]]; try done.
        rewrite logged_Return, bind_Return, IH by done.
        destruct (visit_clauses visit_rec fuel stack goal s depth rest)
          as [| |[found' lines']]; try done.
        unfold then_visit. rewrite !bind_Return, !logged_Return.
        cbn [kb trace call_stack log app]. by rewrite <- !(assoc_L (++)).
    + rewrite IH by done. by rewrite then_visit_nil.
Qed.

End SearchVisits.

(** A call of [prove] makes the visit of its goal: it returns the
    solutions of the visit and adds the lines of the visit to the trace,
    or does not return when the visit does not. *)
Lemma prove_visits fuel goal s depth self :
  prove fuel goal s depth self =
  logged self [] (visit_goal fuel (clauses (kb self)) (call_stack self) goal s depth).
Proof.
  revert goal s depth self. induction fuel as [|fuel IH]; intros goal s depth self; [done|].
  rewrite prove_unfold. cbv zeta. cbn [visit_goal].
  unfold in_call_stack. cbn [call_stack log].
  destruct (existsb _ (call_stack self)).
  { rewrite logged_Return. unfold log. cbn [kb trace call_stack app].
    by rewrite <- (assoc_L (++)). }
  rewrite (for_clauses_visits (clauses (kb self)) (prove fuel)
             (visit_goal fuel (clauses (kb self)))
             (fun g s0 d e He => eq_trans (IH g s0 d e)
                (f_equal (fun K => logged e [] (visit_goal fuel K (call_stack e) g s0 d)) He))
             (call_stack self ++ [(goal, snapshot s)])); [|done..].
  unfold get_matching_clauses. cbn [kb call_stack push log].
  destruct (visit_clauses _ _ _ _ _ _ _) as [| |[solutions lines]]; try done.
  rewrite !logged_Return, !bind_Return. cbn [app].
  rewrite (pop_push (goal, snapshot s)
             (log (times "  " depth +:+ "Trying to prove: " +:+ str (substitute goal s)) self))
    by (split_and!; [done | done | by eexists]).
  rewrite bind_Return. unfold push, log. cbn [kb trace call_stack].
  destruct solutions; by rewrite <- ?(assoc_L (++)), ?app_nil_r.
Qed.

(** A query makes the visit of its goal from an empty call stack, and
    leaves the lines of the visit as the trace of the engine. *)
Lemma query_visits fuel self predicate xs :
  query fuel self predicate xs =
  v ← visit_query fuel (clauses (kb self)) predicate xs;
  Return (v, MkEngine (kb self) v.2 []).
Proof.
  rewrite query_unfold, prove_visits. cbn [kb call_stack]. unfold visit_query.
  by destruct (visit_goal _ _ _ _ _ _) as [| |[solutions lines]].
Qed.

(** C7: [query] is deterministic and isolated from earlier queries.  After
    any queries that returned, (1) a query has the outcome it has on the
    engine before them, the same solutions in the same order and the same
    trace line for line; (2) this outcome is the visit of the
    specification: depth first, the conditions of a body from left to
    right, the candidate clauses in the order of the knowledge base, the
    lines in the order of the visit, and the engine is left with these
    lines as its trace and an empty call stack; (3) the trace and the call
    stack that the engine holds when [query] is called do not matter: both
    are reset; (4) the order of the knowledge base is the order of
    insertion: [add_fact] and [add_rule] put the new clause after the
    others. *)
Theorem C7_query_deterministic fuel self before self' predicate xs :
  run_queries fuel before self = Return self' ->
  query fuel self' predicate xs = query fuel self predicate xs /\
  query fuel self' predicate xs =
    (v ← visit_query fuel (clauses (kb self)) predicate xs;
     Return (v, MkEngine (kb self) v.2 [])) /\
  (forall lines stack,
      query fuel (MkEngine (kb self') lines stack) predicate xs =
      query fuel self predicate xs) /\
  (forall p ys,
      clauses (add_fact (kb self) p ys) =
      clauses (kb self) ++ [MkClause (MkTerm p (map Raw ys)) []]) /\
  (forall p ys body_conditions,
      clauses (add_rule (kb self) p ys body_conditions) =
      clauses (kb self) ++
      [MkClause (MkTerm p (map Raw ys))
         (map (fun '(pred, zs) => MkTerm pred (map Raw zs)) body_conditions)]).
Proof.
  intros H. apply run_queries_kb in H. split_and!.
  - by apply query_isolated.
  - by rewrite query_visits, H.
  - intros lines stack. by apply query_isolated.
  - intros p ys. unfold add_fact. by destruct (negb _).
  - done.
Qed.

Lemma C7_query_deterministic_witness :
  exists self',
    run_queries 5 [("grandparent", ["john"; "alice"]); ("parent", ["mary"; "X"])]
      (Engine_init family_kb) = Return self' /\
    trace self' <> [] /\
    query 5 self' "grandparent" ["john"; "alice"] =
    query 5 (Engine_init family_kb) "grandparent" ["john"; "alice"] /\
    query 5 self' "grandparent" ["john"; "alice"] =
    (v ← visit_query 5 (clauses family_kb) "grandparent" ["john"; "alice"];
     Return (v, MkEngine family_kb v.2 [])) /\
    exists solutions,
      visit_query 5 (clauses family_kb) "grandparent" ["john"; "alice"] =
      Return (solutions,
              ["Trying to prove: grandparent(john, alice)";
               "Unified with: grandparent(X_0, Z_0) :- parent(X_0, Y_0), parent(Y_0, Z_0)";
               "Proving body conditions...";
               "  Trying to prove: parent(john, Y_0)";
               "  Unified with: parent(john, mary)";
               "  ✓ Fact proven: parent(john, Y_0)";
               "  Trying to prove: parent(mary, alice)";
               "  Unified with: parent(mary, alice)";
               "  ✓ Fact proven: parent(mary, alice)"]).
Proof.
  eexists. split; [vm_compute; reflexivity|]. split; [discriminate|].
  pose proof (C7_query_deterministic 5 (Engine_init family_kb)
           [("grandparent", ["john"; "alice"]); ("parent", ["mary"; "X"])] _
           "grandparent" ["john"; "alice"] eq_refl) as (H1 & H2 & _).
  split; [exact H1|]. split; [exact H2|].
  eexists. vm_compute. reflexivity.
Defined.

(** C8: when a call of [prove] returns, with or without solutions, the
    call stack is the one it found. *)
Theorem C8_prove_restores_call_stack fuel goal s depth self solutions self' :
  prove fuel goal s depth self = Return (solutions, self') ->
  call_stack self' = call_stack self.
Proof.
  intros H. pose proof (prove_sound fuel goal s depth self) as Hsound.
  rewrite H in Hsound. by destruct Hsound as (_ & _ & Hc & _).
Qed.

Lemma C8_prove_restores_call_stack_witness :
  exists solutions self',
    prove 5 (MkTerm "grandparent" [Raw "john"; Raw "alice"]) ∅ 0
      (MkEngine family_kb [] [(Term1 "outer", [])]) = Return (solutions, self') /\
    solutions <> [] /\
    call_stack self' = [(Term1 "outer", [])].
Proof.
  eexists _, _. split; [vm_compute; reflexivity|]. split; [discriminate|].
  eapply (C8_prove_restores_call_stack 5 (MkTerm "grandparent" [Raw "john"; Raw "alice"]) ∅ 0
            (MkEngine family_kb [] [(Term1 "outer", [])])).
  vm_compute. reflexivity.
Defined.

(** C9: every solution returned by [prove] holds every binding of the
    substitution the call started from, with the same value. *)
Theorem C9_solutions_extend_substitution fuel goal s depth self solutions self' :
  prove fuel goal s depth self = Return (solutions, self') ->
  forall solution x bound,
    solution ∈ solutions -> s !! x = Some bound -> solution !! x = Some bound.
Proof.
  intros H solution x bound Hin Hx.
  pose proof (prove_sound fuel goal s depth self) as Hsound.
  rewrite H in Hsound. destruct Hsound as [Hsols _].
  rewrite Forall_forall in Hsols. eapply lookup_weaken; [exact Hx | by apply Hsols].
Qed.

Lemma C9_solutions_extend_substitution_witness :
  exists solutions self',
    prove 5 (MkTerm "grandparent" [Raw "W"; Raw "alice"]) (<["W" := Term1 "john"]> ∅) 0
      (Engine_init family_kb) = Return (solutions, self') /\
    solutions <> [] /\
    forall solution, solution ∈ solutions -> solution !! "W" = Some (Term1 "john").
Proof.
  eexists _, _. split; [vm_compute; reflexivity|]. split; [discriminate|].
  intros solution Hin.
  eapply (C9_solutions_extend_substitution 5
            (MkTerm "grandparent" [Raw "W"; Raw "alice"]) (<["W" := Term1 "john"]> ∅) 0
            (Engine_init family_kb)); [vm_compute; reflexivity | exact Hin |].
  apply lookup_insert_eq.
Defined.

(** C10: with the same sequence of clauses, a query returns the same
    solutions and the same trace whatever the cache of ground facts holds,
    and whatever state the two engines were left in. *)
Theorem C10_query_ignores_fact_cache fuel e1 e2 predicate xs :
  clauses (kb e1) = clauses (kb e2) ->
  value (query fuel e1 predicate xs) = value (query fuel e2 predicate xs).
Proof.
  intros Hk. rewrite !query_unfold.
  pose proof (prove_similar [] fuel (MkTerm predicate (map Raw xs)) ∅ 0
                (MkEngine (kb e1) [] []) (MkEngine (kb e2) [] [])) as Hsim.
  destruct (prove _ _ _ _ (MkEngine (kb e1) [] [])) as [| |[r1 e1']],
           (prove _ _ _ _ (MkEngine (kb e2) [] [])) as [| |[r2 e2']];
    try (exfalso; by apply Hsim); try done.
  destruct Hsim as [-> (_ & _ & Ht)]; [by repeat split|].
  rewrite !bind_Return. unfold value. rewrite !bind_Return. by rewrite Ht.
Qed.

Lemma C10_query_ignores_fact_cache_witness :
  value (query 5 (Engine_init (MkKB (clauses family_kb) [])) "grandparent" ["john"; "alice"]) =
  value (query 5 (Engine_init family_kb) "grandparent" ["john"; "alice"]) /\
  facts family_kb <> [].
Proof.
  split; [|discriminate].
  by apply (C10_query_ignores_fact_cache 5 (Engine_init (MkKB (clauses family_kb) []))
              (Engine_init family_kb)).
Defined.


(** ** Queries for ground facts (C6) *)

Lemma add_fact_clauses kb p xs :
  clauses (add_fact kb p xs) = clauses kb ++ [MkClause (MkTerm p (map Raw xs)) []].
Proof. unfold add_fact. by destruct (negb _). Qed.

Lemma substitute_ground p xs s :
  isupper p = false -> existsb isupper xs = false ->
  substitute (MkTerm p (map Raw xs)) s = MkTerm p (map Raw xs).
Proof.
  intros Hp Hxs. rewrite substitute_not_variable by done. f_equal.
  induction xs as [|x xs IH]; [done|].
  simpl in Hxs. apply orb_false_iff in Hxs as [Hx Hxs].
  simpl. rewrite Hx. f_equal. by apply IH.
Qed.

Lemma rename_args_ground rename suffix xs vm :
  existsb isupper xs = false ->
  rename_args rename suffix (map Raw xs) vm = (map Raw xs, vm).
Proof.
  intros Hxs. induction xs as [|x xs IH]; [done|].
  simpl in Hxs. apply orb_false_iff in Hxs as [Hx Hxs].
  simpl. rewrite Hx, IH by done. done.
Qed.

Lemma rename_ground_fact p xs suffix :
  isupper p = false -> existsb isupper xs = false ->
  _rename_variables (MkClause (MkTerm p (map Raw xs)) []) suffix =
  MkClause (MkTerm p (map Raw xs)) [].
Proof.
  intros Hp Hxs. unfold _rename_variables. simpl. rewrite Hp.
  destruct xs as [|x xs]; [done|].
  change (Raw x :: map Raw xs) with (map Raw (x :: xs)).
  by rewrite rename_args_ground.
Qed.

Lemma unify_args_ground_differ fuel xs ys s :
  existsb isupper xs = false -> existsb isupper ys = false ->
  length xs = length ys -> xs <> ys ->
  unify_args (unify (S fuel)) (zip (map Raw xs) (map Raw ys)) s =
  Return (MkUnified false s).
Proof.
  revert ys. induction xs as [|x xs IH]; intros [|y ys] Hxs Hys Hlen Hne; try done.
  simpl in Hxs, Hys. apply orb_false_iff in Hxs as [Hx Hxs]. apply orb_false_iff in Hys as [Hy Hys].
  cbn [map zip unify_args as_term].
  destruct (decide (x = y)) as [->|Hxy].
  - rewrite unify_same, bind_Return. cbn [returned dict].
    apply IH; [done | done | by injection Hlen | congruence].
  - rewrite (unify_mismatch fuel (Term1 x) (Term1 y) s); [done | exact Hx | exact Hy |].
    left. exact Hxy.
Qed.

Lemma unify_ground_differ fuel p xs ys s :
  isupper p = false ->
  existsb isupper xs = false -> existsb isupper ys = false ->
  length xs = length ys -> xs <> ys ->
  unify (S (S fuel)) (MkTerm p (map Raw xs)) (MkTerm p (map Raw ys)) s =
  Return (MkUnified false s).
Proof.
  intros Hp Hxs Hys Hlen Hne. rewrite unify_unfold. cbv zeta.
  rewrite !substitute_ground by done.
  assert (Hneq : MkTerm p (map Raw xs) <> MkTerm p (map Raw ys)).
  { intros [= H]. apply Hne. clear -H. revert ys H.
    induction xs as [|x xs IH]; intros [|y ys]; simpl; try done.
    intros [= -> H]. f_equal. by apply IH. }
  rewrite (Term_eqb_neq _ _ Hneq).
  unfold is_variable. cbn [name args]. rewrite Hp, String.eqb_refl, !length_map, Hlen, Nat.eqb_refl.
  cbn [andb]. by apply unify_args_ground_differ.
Qed.

Section GroundFacts.

Variable prove_rec : Term -> gmap string Term -> nat -> Engine -> Outcome (Solutions * Engine).
Variables (p : string) (xs : list string).
Hypothesis p_not_variable : isupper p = false.
Hypothesis xs_ground : existsb isupper xs = false.

Let goal : Term := MkTerm p (map Raw xs).

(** Ground facts for the predicate and arity of the goal, with other
    arguments, add no solution and no trace line. *)
Lemma for_clauses_other_facts fuel depth indent goal_str others rest solutions self :
  Forall (fun c => ground_fact c /\ matches goal c = true /\ head c <> goal) others ->
  for_clauses prove_rec (S (S fuel)) goal ∅ depth indent goal_str (others ++ rest)
    solutions self =
  for_clauses prove_rec (S (S fuel)) goal ∅ depth indent goal_str rest solutions self.
Proof.
  induction 1 as [|c others (Hg & Hm & Hne) _ IH]; [done|].
  destruct Hg as (q & ys & -> & Hys).
  unfold matches, goal in Hm. cbn [head name args] in Hm.
  apply andb_true_iff in Hm as [->%String.eqb_eq Hlen%Nat.eqb_eq].
  rewrite !length_map in Hlen.
  cbn [app for_clauses]. rewrite rename_ground_fact by done. cbn [head].
  unfold goal. rewrite unify_ground_differ; [| done.. | |].
  - rewrite bind_Return. cbn [returned]. exact IH.
  - done.
  - intros ->. by apply Hne.
Qed.

(** The fact itself adds the substitution as it is, and two trace
    lines. *)
Lemma for_clauses_the_fact fuel depth indent goal_str rest solutions self :
  for_clauses prove_rec (S fuel) goal ∅ depth indent goal_str
    (MkClause goal [] :: rest) solutions self =
  for_clauses prove_rec (S fuel) goal ∅ depth indent goal_str rest (solutions ++ [∅])
    (log (indent +:+ "✓ Fact proven: " +:+ goal_str)
       (log (indent +:+ "Unified with: " +:+ str goal) self)).
Proof.
  cbn [for_clauses]. unfold goal. rewrite rename_ground_fact by done. cbn [head].
  rewrite unify_same, bind_Return. done.
Qed.

End GroundFacts.

Lemma get_matching_clauses_filter kb goal :
  get_matching_clauses kb goal = List.filter (matches goal) (clauses kb).
Proof. reflexivity. Qed.

Lemma filter_others (goal : Term) (l : list Clause) :
  Forall (fun c => matches goal c = true -> ground_fact c /\ head c <> goal) l ->
  Forall (fun c => ground_fact c /\ matches goal c = true /\ head c <> goal)
    (List.filter (matches goal) l).
Proof.
  induction 1 as [|c l Hc _ IH]; simpl; [constructor|].
  destruct (matches goal c) eqn:Hm; [|exact IH].
  constructor; [|exact IH]. destruct (Hc eq_refl). done.
Qed.

Lemma times_0 unit : times unit 0 = "".
Proof. reflexivity. Qed.

(** C6, as stated, fails: after [add_fact("p", "a")] twice, the query
    [p(a)] returns two solutions. *)
Lemma C6_duplicate_fact_counterexample :
  exists lines,
    value (query 5 (Engine_init (add_fact (add_fact KnowledgeBase_init "p" ["a"]) "p" ["a"]))
             "p" ["a"]) =
    Return ([∅; ∅], lines).
Proof. eexists. vm_compute. reflexivity. Qed.

(** C6, amended: for a ground fact [p(a1..an)] whose predicate is not a
    variable name, in a knowledge base where it occurs once and where every
    other clause for [p] with [n] arguments is a ground fact with other
    arguments, the query [p(a1..an)] returns exactly one solution, the empty
    substitution, with a trace of three lines. *)
Theorem C6_ground_fact_query fuel self p xs before after :
  isupper p = false ->
  existsb isupper xs = false ->
  clauses (kb self) = before ++ MkClause (MkTerm p (map Raw xs)) [] :: after ->
  Forall (fun c => matches (MkTerm p (map Raw xs)) c = true ->
                   ground_fact c /\ head c <> MkTerm p (map Raw xs)) (before ++ after) ->
  value (query (S (S (S fuel))) self p xs) =
  Return ([∅],
          ["Trying to prove: " +:+ str (MkTerm p (map Raw xs));
           "Unified with: " +:+ str (MkTerm p (map Raw xs));
           "✓ Fact proven: " +:+ str (MkTerm p (map Raw xs))]).
Proof.
  intros Hp Hxs Hkb Hothers.
  apply Forall_app in Hothers as [Hbefore Hafter].
  apply filter_others in Hbefore, Hafter.
  rewrite query_unfold, prove_unfold. cbv zeta.
  rewrite times_0, substitute_ground by done.
  set (goal := MkTerm p (map Raw xs)) in *.
  change (in_call_stack _ _) with false. cbv iota.
  rewrite get_matching_clauses_filter. cbn [kb push log].
  rewrite Hkb, List.filter_app. cbn [List.filter].
  assert (Hself : matches goal (MkClause goal []) = true).
  { unfold matches. cbn [head]. by rewrite String.eqb_refl, Nat.eqb_refl. }
  rewrite Hself.
  rewrite (for_clauses_other_facts _ p xs Hp Hxs) by exact Hbefore.
  rewrite (for_clauses_the_fact _ p xs Hp Hxs).
  rewrite <- (app_nil_r (List.filter (matches goal) after)).
  rewrite (for_clauses_other_facts _ p xs Hp Hxs) by exact Hafter.
  reflexivity.
Qed.

Lemma C6_ground_fact_query_witness :
  value (query 3
           (Engine_init (add_fact (add_fact KnowledgeBase_init "parent" ["john"; "mary"])
                           "parent" ["mary"; "alice"]))
           "parent" ["john"; "mary"]) =
  Return ([∅],
          ["Trying to prove: parent(john, mary)";
           "Unified with: parent(john, mary)";
           "✓ Fact proven: parent(john, mary)"]).
Proof.
  apply (C6_ground_fact_query 0 _ "parent" ["john"; "mary"] []
           [MkClause (MkTerm "parent" [Raw "mary"; Raw "alice"]) []]);
    [reflexivity | reflexivity | reflexivity |].
  constructor; [|constructor]. intros _. split; [|discriminate].
  exists "parent", ["mary"; "alice"]. split; reflexivity.
Defined.


(** ** A self-recursive rule (C1) *)

Lemma pretty_N_go_no_lower x s :
  Forall (fun c => is_lower_char c = false) (chars s) ->
  Forall (fun c => is_lower_char c = false) (chars (pretty_N_go x s)).
Proof.
  revert s. induction (N.lt_wf_0 x) as [x _ IH]; intros s Hs.
  destruct (decide (x = 0)%N) as [->|Hx]; [by rewrite pretty_N_go_0|].
  rewrite pretty_N_go_step by lia. apply IH.
  - apply N.div_lt; lia.
  - simpl. constructor; [|done]. unfold pretty_N_char. repeat case_match; reflexivity.
Qed.

Lemma pretty_nat_no_lower (d : nat) :
  Forall (fun c => is_lower_char c = false) (chars (pretty d)).
Proof.
  unfold pretty, pretty_nat, pretty, pretty_N. case_decide.
  - by repeat constructor.
  - apply pretty_N_go_no_lower. constructor.
Qed.

Lemma loop_var_isupper d : isupper (loop_var d) = true.
Proof.
  apply isupper_true_iff. split.
  - by left.
  - unfold loop_var. simpl. repeat (constructor; [done|]). apply pretty_nat_no_lower.
Qed.

Lemma loop_var_inj i j : loop_var i = loop_var j -> i = j.
Proof.
  unfold loop_var. intros H.
  do 2 apply (inj (String.app _)) in H. by apply (inj pretty) in H.
Qed.

Lemma loop_goal_inj i j : loop_goal i = loop_goal j -> i = j.
Proof.
  destruct i as [|i], j as [|j]; cbn [loop_goal]; intros H; [done | | |].
  - exfalso. injection H. intros. discriminate.
  - exfalso. injection H. intros. discriminate.
  - assert (Hv : loop_var i = loop_var j) by congruence.
    f_equal. by apply loop_var_inj.
Qed.

Lemma loop_sub_fresh d k : d <= k -> loop_sub d !! loop_var k = None.
Proof.
  induction d as [|d IH]; intros Hk; simpl; [done|].
  rewrite lookup_insert_ne; [apply IH; lia|].
  intros H%loop_var_inj. lia.
Qed.

Lemma loop_rename d :
  _rename_variables (MkClause (MkTerm "loop" [Raw "X"]) [MkTerm "loop" [Raw "X"]]) d =
  MkClause (loop_goal (S d)) [loop_goal (S d)].
Proof.
  unfold _rename_variables. cbn [head body rename_term rename_terms rename_args].
  change (isupper "loop") with false. change (isupper "X") with true. cbv iota.
  rewrite lookup_empty. cbv zeta. cbv iota. rewrite lookup_insert_eq. reflexivity.
Qed.

Lemma loop_substitute_goal d :
  substitute (loop_goal (S d)) (loop_sub (S d)) = MkTerm "loop" [Obj (Term1 "a")].
Proof.
  simpl loop_goal. rewrite substitute_not_variable by done.
  cbn [map]. rewrite loop_var_isupper. simpl loop_sub. by rewrite lookup_insert_eq.
Qed.

Lemma loop_substitute_head d :
  substitute (loop_goal (S d)) (loop_sub d) = loop_goal (S d).
Proof.
  simpl loop_goal. rewrite substitute_not_variable by done.
  cbn [map]. by rewrite loop_var_isupper, loop_sub_fresh.
Qed.

Lemma loop_bind_var fuel d :
  unify (S fuel) (Term1 "a") (Term1 (loop_var d)) (loop_sub d) =
  Return (MkUnified true (loop_sub (S d))).
Proof.
  rewrite unify_unfold. cbv zeta.
  assert (H1 : substitute (Term1 "a") (loop_sub d) = Term1 "a") by done.
  assert (H2 : substitute (Term1 (loop_var d)) (loop_sub d) = Term1 (loop_var d)).
  { unfold Term1. rewrite substitute_unbound by (by apply loop_sub_fresh). done. }
  rewrite H1, H2. change (Term_eqb (Term1 "a") (Term1 (loop_var d))) with false.
  change (is_variable (Term1 "a")) with false. cbv iota.
  unfold is_variable. cbn [name Term1]. rewrite loop_var_isupper, loop_sub_fresh by done.
  reflexivity.
Qed.

(** The head of the renamed rule unifies with the goal, binding the new
    variable, unless the fuel runs out. *)
Lemma loop_unify fuel d :
  unify fuel (loop_goal d) (loop_goal (S d)) (loop_sub d) = Diverge \/
  unify fuel (loop_goal d) (loop_goal (S d)) (loop_sub d) =
    Return (MkUnified true (loop_sub (S d))).
Proof.
  destruct fuel as [|[|fuel]]; [by left | |].
  - left. rewrite unify_unfold. cbv zeta. rewrite loop_substitute_head.
    destruct d as [|d]; [reflexivity|]. by rewrite loop_substitute_goal.
  - right. rewrite unify_unfold. cbv zeta. rewrite loop_substitute_head.
    destruct d as [|d].
    + change (substitute (loop_goal 0) (loop_sub 0)) with (loop_goal 0).
      change (Term_eqb (loop_goal 0) (loop_goal 1)) with false.
      cbv iota. cbn -[unify loop_sub loop_var]. by rewrite loop_bind_var.
    + rewrite loop_substitute_goal.
      cbn -[unify loop_sub loop_var]. by rewrite loop_bind_var.
Qed.

Lemma loop_guard_silent d line self :
  loop_stack d self ->
  in_call_stack (loop_goal d, snapshot (loop_sub d)) (log line self) = false.
Proof.
  unfold loop_stack, in_call_stack. cbn [call_stack log].
  induction 1 as [|e stack (i & Hi & He) _ IH]; [done|].
  cbn [existsb]. rewrite IH, orb_false_r.
  unfold Entry_eqb. cbn [fst]. rewrite He, Term_eqb_neq; [done|].
  intros H%loop_goal_inj. lia.
Qed.

Lemma loop_matching d self :
  kb self = loop_kb ->
  get_matching_clauses (kb self) (loop_goal d) =
  [MkClause (MkTerm "loop" [Raw "X"]) [MkTerm "loop" [Raw "X"]]].
Proof. intros ->. by destruct d. Qed.

(** At every depth the guard is silent and the only clause leads one level
    deeper: no amount of fuel lets the call return. *)
Lemma loop_prove_diverges fuel d self :
  kb self = loop_kb -> loop_stack d self ->
  prove fuel (loop_goal d) (loop_sub d) d self = Diverge.
Proof.
  revert d self. induction fuel as [|fuel IH]; intros d self Hkb Hstack; [done|].
  rewrite prove_unfold. cbv zeta.
  rewrite loop_guard_silent by done.
  rewrite loop_matching by done.
  cbn [for_clauses]. rewrite loop_rename. cbn [head body].
  destruct (loop_unify fuel d) as [-> | ->]; [done|].
  rewrite bind_Return. cbn [returned dict].
  change (is_fact (MkClause (loop_goal (S d)) [loop_goal (S d)])) with false. cbv iota.
  cbn [_prove_body]. rewrite Nat.add_1_r, IH; [done | done |].
  unfold loop_stack in *. cbn [call_stack log push].
  apply Forall_app. split.
  - eapply Forall_impl; [exact Hstack|]. intros e (i & Hi & He). exists i. split; [lia | done].
  - repeat constructor. exists d. split; [lia | done].
Qed.

(** C1: with the single rule [loop(X) :- loop(X)], the query [loop(a)]
    does not return, whatever the fuel: the goal of the call at depth [d+1]
    is [loop(X_d)], a new goal at every depth, so the cycle guard never
    finds its entry on the call stack. *)
Theorem C1_loop_query_diverges fuel :
  query fuel (Engine_init loop_kb) "loop" ["a"] = Diverge.
Proof.
  rewrite query_unfold.
  change (MkTerm "loop" (map Raw ["a"])) with (loop_goal 0).
  change (∅ : gmap string Term) with (loop_sub 0).
  rewrite loop_prove_diverges; [done | done | constructor].
Qed.


(** * Further properties of the code *)

(** ** Terms and substitution *)

(** X1: [Term.__eq__] holds exactly for terms that have the same name and
    the same arguments, a raw string being different from the [Term] with
    that name. *)
Theorem X1_Term_eq_structural t u :
  (Term_eqb t u = true <-> t = u) /\
  Term_eqb (MkTerm "f" [Raw "a"]) (MkTerm "f" [Obj (Term1 "a")]) = false.
Proof. split; [apply Term_eqb_eq | reflexivity]. Qed.

Lemma substitute_args_id (s : gmap string Term) (a : list Arg) :
  Forall (fun arg =>
            match arg with
            | Raw r => isupper r && is_bound s r = false
            | Obj t => substitute t s = t
            end) a ->
  map (fun arg =>
         match arg with
         | Obj t => Obj (substitute t s)
         | Raw r =>
             if isupper r then
               match s !! r with
               | Some bound => Obj bound
               | None => Raw r
               end
             else Raw r
         end) a = a.
Proof.
  induction 1 as [|arg a Harg _ IH]; [done|]. cbn [map]. rewrite IH. f_equal.
  destruct arg as [r|t]; [|by rewrite Harg].
  unfold is_bound in Harg. destruct (isupper r); [|done].
  by destruct (s !! r).
Qed.

Lemma substitute_fixed s t :
  fully_applied s t = true -> substitute t s = t.
Proof.
  induction t as [n a IH] using Term_nested_ind. cbn [fully_applied].
  intros [Htop Hargs]%andb_true_iff. apply negb_true_iff in Htop.
  assert (Hmap : substitute (MkTerm n a) s =
                 MkTerm n (map (fun arg =>
                   match arg with
                   | Obj t => Obj (substitute t s)
                   | Raw r =>
                       if isupper r then
                         match s !! r with
                         | Some bound => Obj bound
                         | None => Raw r
                         end
                       else Raw r
                   end) a)).
  { destruct (isupper n) eqn:Hn; [|by apply substitute_not_variable].
    apply substitute_unbound. unfold is_bound in Htop.
    by destruct (s !! n). }
  rewrite Hmap. f_equal. apply substitute_args_id.
  rewrite forallb_forall in Hargs. rewrite Forall_forall in IH |- *.
  intros arg Harg. specialize (IH arg Harg).
  apply list_elem_of_In in Harg. specialize (Hargs arg Harg).
  destruct arg as [r|t]; [by apply negb_true_iff | by apply IH].
Qed.

Lemma fully_applied_empty t : fully_applied ∅ t = true.
Proof.
  induction t as [n a IH] using Term_nested_ind. cbn [fully_applied].
  unfold is_bound. rewrite lookup_empty, andb_false_r. cbn [negb andb].
  rewrite forallb_forall. intros arg Harg%list_elem_of_In.
  rewrite Forall_forall in IH. specialize (IH arg Harg).
  destruct arg as [r|t]; [|exact IH]. by rewrite lookup_empty, andb_false_r.
Qed.

(** X2: the empty substitution leaves every term as it is. *)
Theorem X2_substitute_empty t : substitute t ∅ = t.
Proof. apply substitute_fixed, fully_applied_empty. Qed.

Lemma substitute_resolves s t :
  (forall x bound, s !! x = Some bound -> fully_applied s bound = true) ->
  fully_applied s (substitute t s) = true.
Proof.
  intros Hrange. induction t as [n a IH] using Term_nested_ind.
  assert (Htop : isupper n && is_bound s n = false ->
                 fully_applied s (MkTerm n (map (fun arg =>
                   match arg with
                   | Obj t => Obj (substitute t s)
                   | Raw r =>
                       if isupper r then
                         match s !! r with
                         | Some bound => Obj bound
                         | None => Raw r
                         end
                       else Raw r
                   end) a)) = true).
  { intros Hn. simpl. rewrite Hn. simpl. rewrite forallb_forall.
    intros y [x [<- Hx]]%in_map_iff.
    rewrite Forall_forall in IH. apply list_elem_of_In in Hx. specialize (IH x Hx).
    destruct x as [r|u]; simpl in *; [|exact IH].
    destruct (isupper r) eqn:Hr; [|by rewrite Hr].
    destruct (s !! r) as [bound|] eqn:Hs; [by eapply Hrange|].
    unfold is_bound. by rewrite Hr, Hs. }
  destruct (isupper n) eqn:Hn.
  - destruct (s !! n) as [bound|] eqn:Hs.
    + rewrite (substitute_bound _ _ _ bound) by done. by eapply Hrange.
    + rewrite substitute_unbound by done. apply Htop. unfold is_bound. by rewrite Hs.
  - rewrite substitute_not_variable by done. by apply Htop.
Qed.

(** X3: a term none of whose variables is bound is left as it is by
    [substitute]; hence, when the stored bindings contain no bound
    variable, substituting twice gives the same as substituting once. *)
Theorem X3_substitute_idempotent s t :
  (forall x bound, s !! x = Some bound -> fully_applied s bound = true) ->
  substitute (substitute t s) s = substitute t s.
Proof. intros H. by apply substitute_fixed, substitute_resolves. Qed.

Lemma X3_substitute_idempotent_witness :
  substitute (substitute (MkTerm "f" [Raw "X"; Obj (Term1 "Y")]) (<["X" := Term1 "a"]> ∅))
    (<["X" := Term1 "a"]> ∅) =
  substitute (MkTerm "f" [Raw "X"; Obj (Term1 "Y")]) (<["X" := Term1 "a"]> ∅).
Proof.
  apply X3_substitute_idempotent. intros x bound H.
  destruct (decide (x = "X")) as [->|Hne].
  - rewrite lookup_insert_eq in H. injection H as <-. reflexivity.
  - rewrite lookup_insert_ne, lookup_empty in H by done. discriminate.
Defined.

(** ** Unification *)

(** X4: when the two terms are equal after the substitution has been
    applied, [unify] returns the substitution as it is; in particular a
    term unifies with itself under any substitution. *)
Theorem X4_unify_equal_terms fuel t1 t2 s :
  substitute t1 s = substitute t2 s ->
  unify (S fuel) t1 t2 s = Return (MkUnified true s).
Proof. intros H. rewrite unify_unfold. cbv zeta. by rewrite H, Term_eqb_refl. Qed.

Lemma X4_unify_equal_terms_witness :
  unify 1 (MkTerm "f" [Raw "X"]) (MkTerm "f" [Obj (Term1 "a")]) (<["X" := Term1 "a"]> ∅) =
  Return (MkUnified true (<["X" := Term1 "a"]> ∅)).
Proof. apply X4_unify_equal_terms. reflexivity. Defined.

Lemma substitute_unbound_variable x s :
  s !! x = None -> substitute (Term1 x) s = Term1 x.
Proof. intros H. unfold Term1. by rewrite substitute_unbound. Qed.

(** X5: a variable without a binding unifies with any term that is not a
    variable after substitution, whichever side it is on, by binding the
    variable to that term; the term is not searched for the variable (no
    occurs check). *)
Theorem X5_unify_binds_variable fuel x t s :
  isupper x = true ->
  s !! x = None ->
  is_variable (substitute t s) = false ->
  unify (S fuel) (Term1 x) t s = Return (MkUnified true (<[x := substitute t s]> s)) /\
  unify (S fuel) t (Term1 x) s = Return (MkUnified true (<[x := substitute t s]> s)).
Proof.
  intros Hx Hs Ht.
  assert (Hne : substitute t s <> Term1 x).
  { intros H. rewrite H in Ht. change (isupper x = false) in Ht. congruence. }
  rewrite !unify_unfold. cbv zeta. rewrite substitute_unbound_variable by done.
  rewrite (Term_eqb_neq (Term1 x)), (Term_eqb_neq (substitute t s)) by congruence.
  rewrite Ht. unfold is_variable. cbn [name Term1]. by rewrite Hx, Hs.
Qed.

Lemma X5_unify_binds_variable_witness :
  unify 1 (Term1 "X") (MkTerm "f" [Raw "X"]) ∅ =
    Return (MkUnified true (<["X" := substitute (MkTerm "f" [Raw "X"]) ∅]> ∅)) /\
  unify 1 (MkTerm "f" [Raw "X"]) (Term1 "X") ∅ =
    Return (MkUnified true (<["X" := substitute (MkTerm "f" [Raw "X"]) ∅]> ∅)).
Proof. apply (X5_unify_binds_variable 0 "X" (MkTerm "f" [Raw "X"]) ∅); reflexivity. Defined.

#[local] Instance binds_variables_refl : Reflexive binds_variables.
Proof. intros s. split; [done|]. intros x Hx [v Hv]. congruence. Qed.

#[local] Instance binds_variables_trans : Transitive binds_variables.
Proof.
  intros s1 s2 s3 [H12 V12] [H23 V23]. split; [by etrans|].
  intros x Hx Hx3. destruct (s2 !! x) eqn:H2; [by apply V12 | by apply V23].
Qed.

Lemma binds_variables_insert x t s :
  isupper x = true -> s !! x = None -> binds_variables s (<[x := t]> s).
Proof.
  intros Hx Hs. split; [by apply insert_subseteq|].
  intros y Hy [v Hv]. destruct (decide (x = y)) as [<-|Hne]; [done|].
  rewrite lookup_insert_ne in Hv by done. congruence.
Qed.

Lemma unify_args_binds_variables rec pairs s r :
  (forall t u s r, rec t u s = Return r -> binds_variables s (dict r)) ->
  unify_args rec pairs s = Return r -> binds_variables s (dict r).
Proof.
  intros Hrec. revert s. induction pairs as [|[x y] pairs IH]; intros s; simpl.
  - by intros [= <-].
  - intros [r' [Hr' H]]%bind_Return_inv. apply Hrec in Hr'.
    destruct (returned r').
    + etrans; [exact Hr' | by apply IH].
    + by injection H as <-.
Qed.

Lemma unify_binds_variables fuel t u s r :
  unify fuel t u s = Return r -> binds_variables s (dict r).
Proof.
  revert t u s r. induction fuel as [|fuel IH]; intros t u s r; [discriminate|].
  rewrite unify_unfold. cbv zeta.
  destruct (Term_eqb _ _); [by intros [= <-]|].
  destruct (is_variable (substitute t s)) eqn:Hv1.
  { destruct (s !! name (substitute t s)) eqn:Hs; [by apply IH|].
    intros [= <-]. by apply binds_variables_insert. }
  destruct (is_variable (substitute u s)) eqn:Hv2.
  { destruct (s !! name (substitute u s)) eqn:Hs; [by apply IH|].
    intros [= <-]. by apply binds_variables_insert. }
  destruct (_ && _); [|by intros [= <-]].
  by apply unify_args_binds_variables.
Qed.

(** X6: whether it succeeds or fails, [unify] leaves in the dictionary
    every binding it found, and the names it adds had no binding and are
    variable names. *)
Theorem X6_unify_binds_only_variables fuel t u s r x bound :
  unify fuel t u s = Return r ->
  dict r !! x = Some bound ->
  s !! x = Some bound \/ (s !! x = None /\ isupper x = true).
Proof.
  intros H Hx. apply unify_binds_variables in H as [Hsub Hvar].
  destruct (s !! x) as [v|] eqn:Hs.
  - left. pose proof (lookup_weaken _ _ _ _ Hs Hsub). congruence.
  - right. split; [done|]. apply Hvar; [done | by eexists].
Qed.

Lemma X6_unify_binds_only_variables_witness :
  (<["W" := Term1 "c"]> ∅ : gmap string Term) !! "X" = Some (Term1 "b") \/
  ((<["W" := Term1 "c"]> ∅ : gmap string Term) !! "X" = None /\ isupper "X" = true).
Proof.
  apply (X6_unify_binds_only_variables 3 half_left half_right (<["W" := Term1 "c"]> ∅)
           (MkUnified false (<["X" := Term1 "b"]> (<["W" := Term1 "c"]> ∅)))).
  - vm_compute. reflexivity.
  - reflexivity.
Defined.

Lemma unify_args_fuel rec1 rec2 pairs s r :
  (forall t u s r, rec1 t u s = Return r -> rec2 t u s = Return r) ->
  unify_args rec1 pairs s = Return r -> unify_args rec2 pairs s = Return r.
Proof.
  intros Hrec. revert s. induction pairs as [|[x y] pairs IH]; intros s; simpl; [done|].
  intros [r' [Hr' H]]%bind_Return_inv. rewrite (Hrec _ _ _ _ Hr'), bind_Return.
  destruct (returned r'); [by apply IH | done].
Qed.

Lemma unify_fuel fuel fuel' t u s r :
  fuel <= fuel' -> unify fuel t u s = Return r -> unify fuel' t u s = Return r.
Proof.
  revert fuel' t u s r. induction fuel as [|fuel IH]; intros fuel' t u s r Hle; [discriminate|].
  destruct fuel' as [|fuel']; [lia|].
  rewrite !unify_unfold. cbv zeta.
  destruct (Term_eqb _ _); [done|].
  destruct (is_variable (substitute t s)).
  { destruct (s !! name (substitute t s)); [apply IH; lia | done]. }
  destruct (is_variable (substitute u s)).
  { destruct (s !! name (substitute u s)); [apply IH; lia | done]. }
  destruct (_ && _); [|done].
  apply unify_args_fuel. intros ????. apply IH. lia.
Qed.

(** X7: the result of [unify] does not depend on the depth allowed for
    its recursion: a call that returns within some depth returns the same
    within any greater depth. *)
Theorem X7_unify_result_stable fuel fuel' t u s r :
  fuel <= fuel' -> unify fuel t u s = Return r -> unify fuel' t u s = Return r.
Proof. apply unify_fuel. Qed.

Lemma X7_unify_result_stable_witness :
  unify 7 half_left half_right ∅ = Return (MkUnified false (<["X" := Term1 "b"]> ∅)).
Proof. apply (X7_unify_result_stable 3 7); [lia | reflexivity]. Defined.


(** ** Knowledge base *)

(** X8: [get_matching_clauses] returns the clauses whose head has the name
    and the number of arguments of the goal, all of them and no other, in
    the order of insertion, each as many times as it was inserted: the
    result is the list of the clauses with the others left out. *)
Theorem X8_get_matching_clauses_spec kb goal :
  (forall c, c ∈ get_matching_clauses kb goal <->
             c ∈ clauses kb /\ name (head c) = name goal /\
             length (args (head c)) = length (args goal)) /\
  get_matching_clauses kb goal `sublist_of` clauses kb /\
  get_matching_clauses kb goal =
    filter (fun c => name (head c) = name goal /\
                     length (args (head c)) = length (args goal)) (clauses kb).
Proof.
  split_and!.
  - intros c. rewrite !list_elem_of_In, get_matching_clauses_filter, filter_In.
    unfold matches. rewrite andb_true_iff, String.eqb_eq, Nat.eqb_eq. done.
  - rewrite get_matching_clauses_filter.
    induction (clauses kb) as [|c l IH]; simpl; [done|].
    destruct (matches goal c); [by apply sublist_skip | by apply sublist_cons].
  - rewrite get_matching_clauses_filter.
    induction (clauses kb) as [|c l IH]; [done|].
    cbn [List.filter]. rewrite filter_cons, <- IH. unfold matches at 1.
    destruct (decide _) as [[Hn Ha]|Hno].
    + apply String.eqb_eq in Hn. apply Nat.eqb_eq in Ha. by rewrite Hn, Ha.
    + destruct (String.eqb _ _) eqn:Hn; [|done].
      destruct (Nat.eqb _ _) eqn:Ha; [|done].
      apply String.eqb_eq in Hn. apply Nat.eqb_eq in Ha. by destruct Hno.
Qed.

Lemma add_rule_clauses kb head_pred head_args body_conditions :
  clauses (add_rule kb head_pred head_args body_conditions) =
  clauses kb ++
  [MkClause (MkTerm head_pred (map Raw head_args))
     (map (fun '(pred, xs) => MkTerm pred (map Raw xs)) body_conditions)].
Proof. reflexivity. Qed.

(** X9: [add_fact] and [add_rule] put the new clause after all earlier
    ones: for every goal, the clauses that matched before still match, in
    the same order, followed by the new clause when it matches. *)
Theorem X9_add_appends kb goal p xs body_conditions :
  get_matching_clauses (add_fact kb p xs) goal =
    get_matching_clauses kb goal ++
    get_matching_clauses (MkKB [MkClause (MkTerm p (map Raw xs)) []] []) goal /\
  get_matching_clauses (add_rule kb p xs body_conditions) goal =
    get_matching_clauses kb goal ++
    get_matching_clauses
      (MkKB [MkClause (MkTerm p (map Raw xs))
               (map (fun '(pred, ys) => MkTerm pred (map Raw ys)) body_conditions)] []) goal.
Proof.
  rewrite !get_matching_clauses_filter, add_fact_clauses, add_rule_clauses.
  by rewrite !List.filter_app.
Qed.

Lemma set_add_NoDup t s : NoDup s -> NoDup (set_add t s).
Proof.
  intros Hs. unfold set_add. destruct (existsb (Term_eqb t) s) eqn:E; [done|].
  apply NoDup_app. split; [done|]. split; [|apply NoDup_singleton].
  intros u Hu ->%list_elem_of_singleton.
  assert (existsb (Term_eqb t) s = true); [|congruence].
  apply existsb_exists. exists t. split; [by apply list_elem_of_In | apply Term_eqb_refl].
Qed.

Lemma set_add_elem t u s : u ∈ set_add t s <-> u ∈ s \/ u = t.
Proof.
  unfold set_add. destruct (existsb (Term_eqb t) s) eqn:E.
  - split; [by left|]. intros [H| ->]; [done|].
    apply existsb_exists in E as (v & Hv & ->%Term_eqb_eq). by apply list_elem_of_In.
  - rewrite elem_of_app, list_elem_of_singleton. done.
Qed.

(** X10: in a knowledge base built with [add_fact] and [add_rule], the
    cache [facts] holds no term twice, and every cached term is the head of
    a fact of [clauses] whose arguments are raw strings none of which is a
    variable name. *)
Theorem X10_fact_cache_invariant kb :
  Built kb ->
  NoDup (facts kb) /\
  forall t, t ∈ facts kb ->
    MkClause t [] ∈ clauses kb /\
    exists p xs, t = MkTerm p (map Raw xs) /\ existsb isupper xs = false.
Proof.
  induction 1 as [|kb p xs _ [Hnd Hin]|kb p xs body _ [Hnd Hin]].
  - split; [constructor | by intros t ?%elem_of_nil].
  - assert (Hold : forall t, t ∈ facts kb ->
               MkClause t [] ∈ clauses (add_fact kb p xs) /\
               exists p xs, t = MkTerm p (map Raw xs) /\ existsb isupper xs = false).
    { intros t Ht. destruct (Hin t Ht) as [Hc Hg]. split; [|done].
      rewrite add_fact_clauses. apply elem_of_app. by left. }
    pose proof (add_fact_clauses kb p xs) as Hcl.
    unfold add_fact in *. destruct (existsb isupper xs) eqn:Hxs; cbn [negb facts] in *;
      [by split|].
    split; [by apply set_add_NoDup|].
    intros t [Ht| ->]%set_add_elem; [by apply Hold|].
    split; [|by exists p, xs].
    cbn [clauses]. apply elem_of_app. right. by apply list_elem_of_singleton.
  - split; [done|]. intros t Ht. destruct (Hin t Ht) as [Hc Hg]. split; [|done].
    rewrite add_rule_clauses. apply elem_of_app. by left.
Qed.

Lemma X10_fact_cache_invariant_witness :
  NoDup (facts family_kb) /\
  forall t, t ∈ facts family_kb ->
    MkClause t [] ∈ clauses family_kb /\
    exists p xs, t = MkTerm p (map Raw xs) /\ existsb isupper xs = false.
Proof. apply X10_fact_cache_invariant. repeat constructor. Defined.

Lemma print_clauses_length test cs :
  length (print_clauses test cs) = length (List.filter test cs).
Proof. induction cs as [|c cs IH]; simpl; [done|]. destruct (test c); simpl; lia. Qed.

Lemma is_rule_not_fact c : is_rule c = negb (is_fact c).
Proof. unfold is_rule, is_fact. by destruct (body c). Qed.

Lemma print_clauses_filter test cs :
  print_clauses test cs = map (fun c => "  " +:+ Clause_str c) (List.filter test cs).
Proof.
  induction cs as [|c cs IH]; [done|]. cbn [print_clauses List.filter].
  destruct (test c); cbn [map]; by rewrite IH.
Qed.

Lemma filter_is_fact cs : List.filter is_fact cs = filter (fun c => body c = []) cs.
Proof.
  induction cs as [|c cs IH]; [done|]. cbn [List.filter]. rewrite filter_cons, IH.
  unfold is_fact. destruct (decide _) as [->|Hno]; [done|]. by destruct (body c).
Qed.

Lemma filter_is_rule cs : List.filter is_rule cs = filter (fun c => body c <> []) cs.
Proof.
  induction cs as [|c cs IH]; [done|]. cbn [List.filter]. rewrite filter_cons, IH.
  unfold is_rule. destruct (decide _) as [Hyes|Hno]; [by destruct (body c)|].
  destruct (body c); [done|]. by destruct Hno.
Qed.

(** X11: [print_knowledge_base] prints the heading of the knowledge base,
    the heading of the facts, one line for each clause with an empty
    body, which is the text of its head after two spaces, the heading of
    the rules, and one line for each clause with a body, which is the text
    of its head, [:-] and the texts of the conditions between commas,
    after two spaces; the facts and the rules are each in the order of
    insertion, and every clause is listed once, under one of the two
    headings: three lines of headings and one line for each clause. *)
Theorem X11_print_knowledge_base_lines kb :
  length (print_knowledge_base kb) = 3 + length (clauses kb) /\
  print_knowledge_base kb =
    "Knowledge Base:" :: "Facts:" ::
    map (fun c => "  " +:+ str (head c)) (filter (fun c => body c = []) (clauses kb)) ++
    "Rules:" ::
    map (fun c => "  " +:+ str (head c) +:+ " :- " +:+ join ", " (map str (body c)))
      (filter (fun c => body c <> []) (clauses kb)) /\
  filter (fun c => body c = []) (clauses kb) ++
    filter (fun c => body c <> []) (clauses kb) ≡ₚ clauses kb.
Proof.
  split_and!.
  - unfold print_knowledge_base. rewrite !length_app, !print_clauses_length. cbn [length].
    enough (length (List.filter is_fact (clauses kb)) +
            length (List.filter is_rule (clauses kb)) = length (clauses kb)) by lia.
    induction (clauses kb) as [|c l IH]; simpl; [done|].
    rewrite is_rule_not_fact. destruct (is_fact c); simpl; lia.
  - unfold print_knowledge_base. rewrite !print_clauses_filter, filter_is_fact, filter_is_rule.
    cbn [app]. do 2 f_equal. f_equal; [|f_equal].
    + apply map_ext_in. intros c [Hc _]%list_elem_of_In%list_elem_of_filter.
      unfold Clause_str, is_fact. by rewrite Hc.
    + apply map_ext_in. intros c [Hc _]%list_elem_of_In%list_elem_of_filter.
      unfold Clause_str, is_fact. by destruct (body c).
  - apply filter_app_complement.
Qed.

(** ** Renaming *)

Lemma rename_terms_length suffix terms vm :
  length (rename_terms suffix terms vm).1 = length terms.
Proof.
  revert vm. induction terms as [|t terms IH]; intros vm; simpl; [done|].
  destruct (rename_term suffix t vm) as [t' vm'].
  specialize (IH vm'). destruct (rename_terms suffix terms vm') as [rest vm''].
  simpl in *. by rewrite IH.
Qed.

Lemma _rename_variables_body clause suffix :
  length (body (_rename_variables clause suffix)) = length (body clause).
Proof.
  unfold _rename_variables.
  destruct (rename_term suffix (head clause) ∅) as [h vm].
  pose proof (rename_terms_length suffix (body clause) vm) as H.
  destruct (rename_terms suffix (body clause) vm) as [b vm']. exact H.
Qed.

(** X12: renaming keeps the number of body conditions of a clause, so a
    fact stays a fact and a rule stays a rule. *)
Theorem X12_rename_keeps_kind clause suffix :
  length (body (_rename_variables clause suffix)) = length (body clause) /\
  is_fact (_rename_variables clause suffix) = is_fact clause /\
  is_rule (_rename_variables clause suffix) = is_rule clause.
Proof.
  pose proof (_rename_variables_body clause suffix) as H.
  unfold is_fact, is_rule. by rewrite H.
Qed.

Lemma rename_args_ground_terms rename suffix a vm :
  Forall (fun arg =>
            match arg with
            | Raw r => isupper r = false
            | Obj t => forall vm, rename t vm = (t, vm)
            end) a ->
  rename_args rename suffix a vm = (a, vm).
Proof.
  induction 1 as [|arg a Harg _ IH]; [done|]. cbn [rename_args].
  destruct arg as [r|t]; [rewrite Harg | rewrite Harg]; by rewrite IH.
Qed.

Lemma rename_term_ground suffix t vm :
  ground_term t = true -> rename_term suffix t vm = (t, vm).
Proof.
  revert vm. induction t as [n a IH] using Term_nested_ind. intros vm.
  cbn [ground_term]. intros [Hn%negb_true_iff Ha]%andb_true_iff.
  cbn [rename_term]. rewrite Hn. destruct a as [|arg a]; [done|].
  rewrite rename_args_ground_terms; [done|].
  rewrite forallb_forall in Ha. rewrite Forall_forall in IH |- *.
  intros x Hx. specialize (IH x Hx). apply list_elem_of_In in Hx. specialize (Ha x Hx).
  destruct x as [r|t]; [by apply negb_true_iff | intros vm'; by apply IH].
Qed.

Lemma rename_terms_ground suffix terms vm :
  forallb ground_term terms = true -> rename_terms suffix terms vm = (terms, vm).
Proof.
  induction terms as [|t terms IH]; [done|]. cbn [forallb rename_terms].
  intros [Ht Hts]%andb_true_iff. by rewrite rename_term_ground, IH.
Qed.

(** X13: a clause without variable names, in its head and in its body, is
    left as it is by renaming, at every depth. *)
Theorem X13_rename_ground_clause clause suffix :
  ground_term (head clause) = true ->
  forallb ground_term (body clause) = true ->
  _rename_variables clause suffix = clause.
Proof.
  intros Hh Hb. unfold _rename_variables.
  rewrite rename_term_ground, rename_terms_ground by done. by destruct clause.
Qed.

Lemma X13_rename_ground_clause_witness :
  _rename_variables
    (MkClause (MkTerm "p" [Raw "a"; Obj (MkTerm "g" [Raw "b"])]) [MkTerm "q" [Raw "a"]]) 4 =
  MkClause (MkTerm "p" [Raw "a"; Obj (MkTerm "g" [Raw "b"])]) [MkTerm "q" [Raw "a"]].
Proof. apply X13_rename_ground_clause; reflexivity. Defined.


Lemma suffix_mapping_empty suffix : suffix_mapping suffix ∅.
Proof. intros x renamed H. by rewrite lookup_empty in H. Qed.

Lemma suffix_mapping_insert suffix x vm :
  suffix_mapping suffix vm -> suffix_mapping suffix (<[x := suffixed suffix x]> vm).
Proof.
  intros Hvm y renamed. destruct (decide (x = y)) as [<-|Hne].
  - rewrite lookup_insert_eq. by intros [= <-].
  - rewrite lookup_insert_ne by done. apply Hvm.
Qed.

Lemma rename_args_with_suffix rename suffix a vm :
  Forall (fun arg =>
            match arg with
            | Raw _ => True
            | Obj t => forall vm, suffix_mapping suffix vm ->
                                  (rename t vm).1 = with_suffix suffix t /\
                                  suffix_mapping suffix (rename t vm).2
            end) a ->
  suffix_mapping suffix vm ->
  (rename_args rename suffix a vm).1 =
    map (fun arg =>
           match arg with
           | Raw r => if isupper r then Raw (suffixed suffix r) else Raw r
           | Obj u => Obj (with_suffix suffix u)
           end) a /\
  suffix_mapping suffix (rename_args rename suffix a vm).2.
Proof.
  intros Ha. revert vm. induction Ha as [|arg a Harg _ IH]; intros vm Hvm; [done|].
  cbn [rename_args map].
  assert (Hstep : exists new_arg vm',
             match arg with
             | Obj t => let '(t', var_mapping) := rename t vm in (Obj t', var_mapping)
             | Raw r =>
                 if isupper r then
                   match vm !! r with
                   | Some renamed => (Raw renamed, vm)
                   | None => (Raw (r +:+ "_" +:+ pretty suffix),
                              <[r := r +:+ "_" +:+ pretty suffix]> vm)
                   end
                 else (Raw r, vm)
             end = (new_arg, vm') /\
             new_arg = match arg with
                       | Raw r => if isupper r then Raw (suffixed suffix r) else Raw r
                       | Obj u => Obj (with_suffix suffix u)
                       end /\
             suffix_mapping suffix vm').
  { destruct arg as [r|t].
    - destruct (isupper r); [|by eexists _, _].
      destruct (vm !! r) as [renamed|] eqn:Hr.
      + eexists _, _. split; [done|]. split; [|done]. by rewrite (Hvm _ _ Hr).
      + eexists _, _. split; [done|]. split; [done|]. by apply suffix_mapping_insert.
    - destruct (Harg vm Hvm) as [H1 H2]. destruct (rename t vm) as [t' vm'].
      eexists _, _. split; [done|]. simpl in *. by rewrite H1. }
  destruct Hstep as (new_arg & vm' & -> & -> & Hvm').
  destruct (IH vm' Hvm') as [H1 H2].
  destruct (rename_args rename suffix a vm') as [rest vm'']. simpl in *.
  by rewrite H1.
Qed.

Lemma rename_term_with_suffix suffix t vm :
  suffix_mapping suffix vm ->
  (rename_term suffix t vm).1 = with_suffix suffix t /\
  suffix_mapping suffix (rename_term suffix t vm).2.
Proof.
  revert vm. induction t as [n a IH] using Term_nested_ind. intros vm Hvm.
  cbn [rename_term with_suffix]. destruct (isupper n).
  - destruct (vm !! n) as [renamed|] eqn:Hn; simpl.
    + by rewrite (Hvm _ _ Hn).
    + split; [done|]. by apply suffix_mapping_insert.
  - destruct a as [|arg a]; [done|].
    pose proof (rename_args_with_suffix (fun t => rename_term suffix t) suffix (arg :: a) vm)
      as Hargs.
    destruct (rename_args _ suffix (arg :: a) vm) as [new_args vm'].
    destruct Hargs as [H1 H2]; [|done|].
    + eapply Forall_impl; [exact IH|]. intros [r|t]; [done|]. intros Ht vm0. apply Ht.
    + simpl in *. by rewrite H1.
Qed.

Lemma rename_terms_with_suffix suffix terms vm :
  suffix_mapping suffix vm ->
  (rename_terms suffix terms vm).1 = map (with_suffix suffix) terms.
Proof.
  revert vm. induction terms as [|t terms IH]; intros vm Hvm; [done|].
  cbn [rename_terms map].
  destruct (rename_term_with_suffix suffix t vm Hvm) as [H1 H2].
  destruct (rename_term suffix t vm) as [t' vm']. simpl in *.
  specialize (IH vm' H2). destruct (rename_terms suffix terms vm') as [rest vm''].
  simpl in *. by rewrite H1, IH.
Qed.

(** X14: renaming a clause at a depth replaces every variable name, in the
    head and in the body alike, by that name followed by an underscore and
    the depth; a variable term loses its arguments, and nothing else
    changes.  The dictionary kept by [_rename_variables] has no effect on
    the result. *)
Theorem X14_rename_adds_suffix clause suffix :
  _rename_variables clause suffix =
  MkClause (with_suffix suffix (head clause)) (map (with_suffix suffix) (body clause)).
Proof.
  unfold _rename_variables.
  destruct (rename_term_with_suffix suffix (head clause) ∅ (suffix_mapping_empty suffix))
    as [H1 H2].
  destruct (rename_term suffix (head clause) ∅) as [h vm]. simpl in *.
  pose proof (rename_terms_with_suffix suffix (body clause) vm H2) as H3.
  destruct (rename_terms suffix (body clause) vm) as [b vm']. simpl in *.
  by rewrite H1, H3.
Qed.

Lemma pretty_N_go_digits (P : ascii -> Prop) x s :
  (forall d, P (pretty_N_char d)) ->
  Forall P (chars s) -> Forall P (chars (pretty_N_go x s)).
Proof.
  intros HP. revert s. induction (N.lt_wf_0 x) as [x _ IH]; intros s Hs.
  destruct (decide (x = 0)%N) as [->|Hx]; [by rewrite pretty_N_go_0|].
  rewrite pretty_N_go_step by lia. apply IH.
  - apply N.div_lt; lia.
  - simpl. by constructor.
Qed.

Lemma pretty_nat_uncased (d : nat) :
  Forall (fun c => is_lower_char c = false /\ is_upper_char c = false) (chars (pretty d)).
Proof.
  assert (HP : forall d, is_lower_char (pretty_N_char d) = false /\
                         is_upper_char (pretty_N_char d) = false).
  { intros x. unfold pretty_N_char. repeat case_match; split; reflexivity. }
  unfold pretty, pretty_nat, pretty, pretty_N. case_decide.
  - by repeat constructor.
  - by apply pretty_N_go_digits; [|constructor].
Qed.

Lemma isupper_from_uncased cased s :
  Forall (fun c => is_lower_char c = false /\ is_upper_char c = false) (chars s) ->
  isupper_from cased s = cased.
Proof.
  revert cased. induction s as [|c s IH]; intros cased; simpl; [done|].
  intros [[Hl Hu] Hs]%Forall_cons. rewrite Hl, Hu, orb_false_r. by apply IH.
Qed.

Lemma isupper_from_app cased s1 s2 :
  Forall (fun c => is_lower_char c = false /\ is_upper_char c = false) (chars s2) ->
  isupper_from cased (s1 +:+ s2) = isupper_from cased s1.
Proof.
  intros Hs2. revert cased. induction s1 as [|c s1 IH]; intros cased.
  - by apply isupper_from_uncased.
  - change (String c s1 +:+ s2) with (String c (s1 +:+ s2)). simpl.
    destruct (is_lower_char c); [done|]. apply IH.
Qed.

(** X15: the suffix does not change what a name is: the renamed name is a
    variable name exactly when the name was one. *)
Theorem X15_suffix_keeps_classification suffix n :
  isupper (suffixed suffix n) = isupper n.
Proof.
  unfold suffixed, isupper. apply isupper_from_app.
  change ("_" +:+ pretty suffix) with (String "_" (pretty suffix)). simpl.
  constructor; [by split | apply pretty_nat_uncased].
Qed.

Lemma String_length_app s1 s2 :
  String.length (s1 +:+ s2) = String.length s1 + String.length s2.
Proof.
  induction s1 as [|c s1 IH]; [done|].
  change (String c s1 +:+ s2) with (String c (s1 +:+ s2)). simpl. by rewrite IH.
Qed.

Lemma String_app_inj_r s1 s2 t : s1 +:+ t = s2 +:+ t -> s1 = s2.
Proof.
  revert s2. induction s1 as [|c s1 IH]; intros [|c' s2] H.
  - done.
  - apply (f_equal String.length) in H. rewrite !String_length_app in H.
    simpl in H. lia.
  - apply (f_equal String.length) in H. rewrite !String_length_app in H.
    simpl in H. lia.
  - change (String c (s1 +:+ t) = String c' (s2 +:+ t)) in H.
    injection H as -> H. f_equal. by apply IH.
Qed.

(** X16: renaming does not merge names: at one depth two different names
    get different new names, and one name gets different new names at two
    different depths. *)
Theorem X16_suffix_injective suffix suffix' n n' :
  (suffixed suffix n = suffixed suffix n' -> n = n') /\
  (suffixed suffix n = suffixed suffix' n -> suffix = suffix').
Proof.
  unfold suffixed. split; intros H.
  - by apply String_app_inj_r in H.
  - do 2 apply (inj (String.app _)) in H. by apply (inj pretty) in H.
Qed.


(** ** The call stack guard *)

#[local] Instance item_le_total : Total item_le.
Proof. intros x y. unfold item_le. apply (total String.le). Qed.

Lemma snapshot_inj s1 s2 : snapshot s1 = snapshot s2 -> s1 = s2.
Proof.
  unfold snapshot. intros H. apply map_to_list_inj.
  by rewrite <- (merge_sort_Permutation item_le (map_to_list s1)), H,
    (merge_sort_Permutation item_le).
Qed.

(** X17: the snapshot [tuple(sorted(substitution.items()))] lists the
    bindings of the substitution, each once, in the order of their names,
    and two substitutions have the same snapshot exactly when they hold
    the same bindings. *)
Theorem X17_snapshot_canonical s1 s2 :
  snapshot s1 ≡ₚ map_to_list s1 /\
  Sorted item_le (snapshot s1) /\
  (snapshot s1 = snapshot s2 <-> s1 = s2).
Proof.
  split; [apply merge_sort_Permutation|].
  split; [apply (Sorted_merge_sort item_le)|].
  split; [apply snapshot_inj | by intros ->].
Qed.

Lemma snapshot_eqb_eq l1 l2 : snapshot_eqb l1 l2 = true <-> l1 = l2.
Proof.
  unfold snapshot_eqb. apply list_eqb_eq. apply Forall_forall.
  intros [k v] _ [k' v']. cbn [fst snd].
  rewrite andb_true_iff, String.eqb_eq, Term_eqb_eq. split; [by intros [-> ->] | by intros [= -> ->]].
Qed.

Lemma Entry_eqb_eq e1 e2 : Entry_eqb e1 e2 = true <-> e1 = e2.
Proof.
  unfold Entry_eqb. destruct e1 as [g1 l1], e2 as [g2 l2]. cbn [fst snd].
  rewrite andb_true_iff, Term_eqb_eq, snapshot_eqb_eq.
  split; [by intros [-> ->] | by intros [= -> ->]].
Qed.

Lemma in_call_stack_elem entry self :
  in_call_stack entry self = true <-> entry ∈ call_stack self.
Proof.
  unfold in_call_stack. rewrite existsb_exists. split.
  - intros (e & He & ->%Entry_eqb_eq). by apply list_elem_of_In.
  - intros He. exists entry. split; [by apply list_elem_of_In | by apply Entry_eqb_eq].
Qed.

(** X18: when the goal is already on the call stack with a substitution
    that holds the same bindings, [prove] returns no solution at once: it
    adds two lines to the trace, tries no clause, and leaves the call stack
    as it is. *)
Theorem X18_guard_fires fuel goal s s' depth self :
  (goal, snapshot s') ∈ call_stack self ->
  s' = s ->
  prove (S fuel) goal s depth self =
  Return ([],
          log (times "  " depth +:+ "✗ Infinite recursion detected")
            (log (times "  " depth +:+ "Trying to prove: " +:+ str (substitute goal s)) self)).
Proof.
  intros Hin ->. rewrite prove_unfold. cbv zeta.
  assert (H : in_call_stack (goal, snapshot s)
                (log (times "  " depth +:+ "Trying to prove: " +:+ str (substitute goal s)) self)
              = true) by (by apply in_call_stack_elem).
  by rewrite H.
Qed.

Lemma X18_guard_fires_witness :
  prove 1 (MkTerm "p" [Raw "X"]) (<["X" := Term1 "a"]> ∅) 1
    (MkEngine family_kb [] [(MkTerm "p" [Raw "X"], [("X", Term1 "a")])]) =
  Return ([],
          log (times "  " 1 +:+ "✗ Infinite recursion detected")
            (log (times "  " 1 +:+ "Trying to prove: " +:+
                  str (substitute (MkTerm "p" [Raw "X"]) (<["X" := Term1 "a"]> ∅)))
               (MkEngine family_kb [] [(MkTerm "p" [Raw "X"], [("X", Term1 "a")])]))).
Proof.
  apply (X18_guard_fires 0 _ _ (<["X" := Term1 "a"]> ∅)); [|reflexivity].
  apply list_elem_of_singleton. reflexivity.
Defined.

(** ** Search *)

(** X19: a goal for which the knowledge base has no clause with that name
    and that number of arguments (an unknown predicate, or a known one with
    another arity) gives no solution and a trace of two lines; no error is
    raised. *)
Theorem X19_query_unknown_goal fuel self predicate xs :
  get_matching_clauses (kb self) (MkTerm predicate (map Raw xs)) = [] ->
  value (query (S fuel) self predicate xs) =
  Return ([],
          ["Trying to prove: " +:+ str (MkTerm predicate (map Raw xs));
           "✗ Cannot prove: " +:+ str (MkTerm predicate (map Raw xs))]).
Proof.
  intros Hnone. rewrite query_unfold, prove_unfold. cbv zeta.
  rewrite times_0, substitute_fixed by apply fully_applied_empty.
  change (in_call_stack _ _) with false. cbv iota.
  cbn [kb push log]. rewrite Hnone. reflexivity.
Qed.

Lemma X19_query_unknown_goal_witness :
  value (query 1 (Engine_init family_kb) "parent" ["john"]) =
  Return ([],
          ["Trying to prove: " +:+ str (MkTerm "parent" (map Raw ["john"]));
           "✗ Cannot prove: " +:+ str (MkTerm "parent" (map Raw ["john"]))]).
Proof. apply X19_query_unknown_goal. reflexivity. Defined.

Lemma for_solutions_singletons (solutions acc : Solutions) (self : Engine) :
  for_solutions (fun solution e => Return ([solution], e)) solutions acc self =
  Return (acc ++ solutions, self).
Proof.
  revert acc. induction solutions as [|sol rest IH]; intros acc; simpl.
  - by rewrite app_nil_r.
  - rewrite ?bind_Return, IH. by rewrite <- (assoc_L (++)).
Qed.

(** X20: a body of one condition has the solutions of that condition, in
    the same order, and leaves the engine as the proof of the condition
    does; it ends as that proof ends. *)
Theorem X20_single_condition_body fuel condition s depth self :
  _prove_body (prove fuel) [condition] s depth self = prove fuel condition s depth self.
Proof.
  cbn [_prove_body].
  destruct (prove fuel condition s depth self) as [| |[solutions e]]; [done | done |].
  rewrite bind_Return.
  change (fun solution => _prove_body (prove fuel) [] solution depth)
    with (fun (solution : gmap string Term) (e : Engine) => Return ([solution], e)).
  by rewrite for_solutions_singletons.
Qed.

(** X21: a call of [prove] does not raise an [IndexError] from
    [call_stack.pop()]: the entry it pushed is there to be popped.  Either
    the call does not return within the nesting of calls that the fuel
    allows (in Python the recursion limit can be exceeded and a
    [RecursionError] raised, as for the query of C1; the statement says
    nothing about that case), or it returns, and then the knowledge base
    is the same and the trace is the old trace with lines added at its
    end. *)
Theorem X21_prove_safe fuel goal s depth self :
  match prove fuel goal s depth self with
  | Diverge => True
  | Raised => False
  | Return (_, self') => kb self' = kb self /\ trace self `prefix_of` trace self'
  end.
Proof.
  pose proof (prove_sound fuel goal s depth self) as H.
  destruct (prove fuel goal s depth self) as [| |[solutions e]]; [done | done |].
  by destruct H as (_ & Hk & _ & Ht).
Qed.

(** X22: what a call of [prove] returns and the lines it adds to the
    trace do not depend on the lines that were in the trace before. *)
Theorem X22_trace_frame fuel goal s depth knowledge_base lines earlier stack :
  similar_outcome earlier
    (prove fuel goal s depth (MkEngine knowledge_base (earlier ++ lines) stack))
    (prove fuel goal s depth (MkEngine knowledge_base lines stack)).
Proof. apply prove_similar. by repeat split. Qed.

(** X23: the trace that [query] returns starts with the line that
    announces the goal of the query. *)
Theorem X23_query_trace_first_line fuel self predicate xs solutions lines :
  value (query fuel self predicate xs) = Return (solutions, lines) ->
  exists rest,
    lines = ("Trying to prove: " +:+ str (MkTerm predicate (map Raw xs))) :: rest.
Proof.
  destruct fuel as [|fuel]; [discriminate|].
  rewrite query_unfold, prove_unfold. cbv zeta.
  rewrite times_0, substitute_fixed by apply fully_applied_empty.
  change (in_call_stack _ _) with false. cbv iota.
  set (line := "" +:+ "Trying to prove: " +:+ str (MkTerm predicate (map Raw xs))).
  match goal with
  | |- context [for_clauses ?rec ?f ?g ?s ?d ?i ?gs ?m ?acc ?e] =>
      pose proof (for_clauses_sound rec (prove_sound fuel) f g s d i gs m acc e
                    (Forall_nil_2 _)) as Hsound;
      destruct (for_clauses rec f g s d i gs m acc e) as [| |[sols e']]
  end; try done.
  rewrite bind_Return. rewrite (pop_push _ _ _ (proj2 Hsound)), bind_Return.
  destruct Hsound as (_ & _ & _ & [rest Hrest]). cbn [trace push log app] in Hrest.
  destruct sols; rewrite bind_Return; unfold value; rewrite bind_Return;
    intros [= <- <-]; cbn [trace log]; rewrite Hrest; by eexists.
Qed.

Lemma X23_query_trace_first_line_witness :
  exists rest,
    ["Trying to prove: parent(john)"; "✗ Cannot prove: parent(john)"] =
    ("Trying to prove: " +:+ str (MkTerm "parent" (map Raw ["john"]))) :: rest.
Proof.
  apply (X23_query_trace_first_line 1 (Engine_init family_kb) "parent" ["john"] []).
  reflexivity.
Defined.

(** ** Depth of recursion *)

Section SearchFuel.

Variables rec1 rec2 : Term -> gmap string Term -> nat -> Engine -> Outcome (Solutions * Engine).
Variables fuel1 fuel2 : nat.

Hypothesis rec_returns :
  forall goal s depth self r, rec1 goal s depth self = Return r -> rec2 goal s depth self = Return r.
Hypothesis fuel_le : fuel1 <= fuel2.

Lemma for_solutions_fuel step1 step2 first_solutions solutions self r :
  (forall solution e r, step1 solution e = Return r -> step2 solution e = Return r) ->
  for_solutions step1 first_solutions solutions self = Return r ->
  for_solutions step2 first_solutions solutions self = Return r.
Proof.
  intros Hstep. revert solutions self.
  induction first_solutions as [|sol rest IH]; intros solutions self; simpl; [done|].
  intros [[r' e] [Hr' H]]%bind_Return_inv.
  rewrite (Hstep _ _ _ Hr'), bind_Return. by apply IH.
Qed.

Lemma _prove_body_fuel body s depth self r :
  _prove_body rec1 body s depth self = Return r ->
  _prove_body rec2 body s depth self = Return r.
Proof.
  revert s self r. induction body as [|first remaining IH]; intros s self r; simpl; [done|].
  intros [[first_solutions e] [Hfirst H]]%bind_Return_inv.
  rewrite (rec_returns _ _ _ _ _ Hfirst), bind_Return.
  revert H. apply for_solutions_fuel. intros solution e0 r0. apply IH.
Qed.

Lemma for_clauses_fuel goal s depth indent goal_str matching solutions self r :
  for_clauses rec1 fuel1 goal s depth indent goal_str matching solutions self = Return r ->
  for_clauses rec2 fuel2 goal s depth indent goal_str matching solutions self = Return r.
Proof.
  revert solutions self.
  induction matching as [|clause rest IH]; intros solutions self; simpl; [done|].
  intros [u [Hu H]]%bind_Return_inv.
  rewrite (unify_fuel _ _ _ _ _ _ fuel_le Hu), bind_Return.
  destruct (returned u); [|by apply IH].
  destruct (is_fact _); [by apply IH|].
  apply bind_Return_inv in H as [[body_solutions e] [Hbody H]].
  rewrite (_prove_body_fuel _ _ _ _ _ Hbody), bind_Return. by apply IH.
Qed.

End SearchFuel.

Lemma prove_fuel fuel fuel' goal s depth self r :
  fuel <= fuel' ->
  prove fuel goal s depth self = Return r -> prove fuel' goal s depth self = Return r.
Proof.
  revert fuel' goal s depth self r.
  induction fuel as [|fuel IH]; intros fuel' goal s depth self r Hle; [discriminate|].
  destruct fuel' as [|fuel']; [lia|].
  rewrite !prove_unfold. cbv zeta.
  destruct (in_call_stack _ _); [done|].
  intros [[solutions e] [Hloop H]]%bind_Return_inv.
  rewrite (for_clauses_fuel (prove fuel) (prove fuel') fuel fuel'
             (fun g s0 d e0 r0 => IH fuel' g s0 d e0 r0 ltac:(lia)) ltac:(lia)
             _ _ _ _ _ _ _ _ _ Hloop).
  by rewrite bind_Return.
Qed.

(** X24: the result of [prove], and so of [query], does not depend on the
    depth allowed for the recursion: a call that returns within some depth
    returns the same solutions, trace and state within any greater
    depth. *)
Theorem X24_search_result_stable fuel fuel' self predicate xs r :
  fuel <= fuel' ->
  query fuel self predicate xs = Return r ->
  query fuel' self predicate xs = Return r.
Proof.
  intros Hle. rewrite !query_unfold.
  intros [[solutions e] [Hprove H]]%bind_Return_inv.
  by rewrite (prove_fuel _ _ _ _ _ _ _ Hle Hprove), bind_Return.
Qed.

Lemma X24_search_result_stable_witness :
  exists r,
    query 5 (Engine_init family_kb) "grandparent" ["john"; "alice"] = Return r /\
    query 9 (Engine_init family_kb) "grandparent" ["john"; "alice"] = Return r.
Proof.
  eexists. split; [vm_compute; reflexivity|].
  apply (X24_search_result_stable 5 9); [lia | vm_compute; reflexivity].
Defined.


(** * The state machine and the temporal evaluators *)

Import LtlCtl.

Lemma run_bind_Ok {A B : Type} (a : A) (k : A -> Run B) : (Ok a ≫= k) = k a.
Proof. reflexivity. Qed.

Lemma run_bind_Ok_inv {A B : Type} (c : Run A) (k : A -> Run B) (b : B) :
  (c ≫= k) = Ok b -> exists a, c = Ok a /\ k a = Ok b.
Proof. destruct c as [| |a]; try discriminate. intros H. by exists a. Qed.

(** ** The state machine *)

Lemma get_successors_add_state sm n ps st :
  get_successors (add_state sm n ps) st = get_successors sm st.
Proof.
  unfold get_successors, add_state. cbn [transitions].
  destruct (transitions sm !! n) eqn:Hn; [done|].
  destruct (decide (n = st)) as [<-|Hne].
  - by rewrite lookup_insert_eq, Hn.
  - by rewrite lookup_insert_ne.
Qed.

Lemma get_successors_add_transition sm a b :
  get_successors (add_transition sm a b) a = get_successors sm a ++ [b].
Proof.
  unfold get_successors, add_transition. cbn [transitions].
  destruct (transitions sm !! a) as [successors|] eqn:Ha.
  - by rewrite Ha, lookup_insert_eq.
  - by rewrite !lookup_insert_eq.
Qed.

Lemma get_successors_add_transition_ne sm a b st :
  st <> a -> get_successors (add_transition sm a b) st = get_successors sm st.
Proof.
  intros Hne. unfold get_successors, add_transition. cbn [transitions].
  destruct (transitions sm !! a) as [successors|] eqn:Ha.
  - by rewrite Ha, lookup_insert_ne.
  - by rewrite lookup_insert_eq, !lookup_insert_ne.
Qed.

(** X25: what the updates of the state machine change.  [add_state] sets
    the propositions of the state, replacing earlier ones, and changes
    neither another state nor the successors of any state, so adding a
    state again keeps its transitions; [add_transition] puts the target
    after the successors the source had, changes the successors of no
    other state, and registers no state: [has_prop] is as before. *)
Theorem X25_state_machine_updates sm n ps a b st p :
  has_prop (add_state sm n ps) n p = Ok (bool_decide (p ∈ ps)) /\
  (st <> n -> has_prop (add_state sm n ps) st p = has_prop sm st p) /\
  get_successors (add_state sm n ps) st = get_successors sm st /\
  get_successors (add_transition sm a b) a = get_successors sm a ++ [b] /\
  (st <> a -> get_successors (add_transition sm a b) st = get_successors sm st) /\
  has_prop (add_transition sm a b) st p = has_prop sm st p.
Proof.
  split; [|split; [|split; [|split; [|split]]]].
  - unfold has_prop, add_state. cbn [states]. by rewrite lookup_insert_eq.
  - intros Hne. unfold has_prop, add_state. cbn [states]. by rewrite lookup_insert_ne.
  - apply get_successors_add_state.
  - apply get_successors_add_transition.
  - apply get_successors_add_transition_ne.
  - reflexivity.
Qed.

(** ** Linear time *)

(** X26: from a start position at or after the end of the path, whatever
    the states of the path are, [eventually] and [until] answer [False],
    [globally] answers [True], and [next_state] answers [False]; no state
    is looked up. *)
Theorem X26_ltl_empty_range sm path p q start_pos :
  length path <= start_pos ->
  eventually sm path p start_pos = Ok false /\
  globally sm path p start_pos = Ok true /\
  until sm path p q start_pos = Ok false /\
  next_state sm path p start_pos = Ok false.
Proof.
  intros Hle. unfold eventually, globally, until, next_state.
  rewrite drop_ge by done.
  assert (H : Nat.ltb (start_pos + 1) (length path) = false) by (apply Nat.ltb_ge; lia).
  by rewrite H.
Qed.

Lemma X26_ltl_empty_range_witness :
  eventually StateMachine_init ["nowhere"] "p" 1 = Ok false /\
  globally StateMachine_init ["nowhere"] "p" 1 = Ok true /\
  until StateMachine_init ["nowhere"] "p" "q" 1 = Ok false /\
  next_state StateMachine_init ["nowhere"] "p" 1 = Ok false.
Proof. apply X26_ltl_empty_range. simpl. lia. Defined.

Lemma until_loop_eventually sm rest p q :
  until_loop sm rest p q = Ok true -> eventually_loop sm rest q = Ok true.
Proof.
  induction rest as [|state rest IH]; simpl; [discriminate|].
  intros [b2 [H2 H]]%run_bind_Ok_inv. rewrite H2, run_bind_Ok.
  destruct b2; [done|].
  apply run_bind_Ok_inv in H as [b1 [H1 H]].
  destruct b1; simpl in H; [by apply IH | discriminate].
Qed.

(** X27: when [until(path, p, q, i)] answers [True], so does
    [eventually(path, q, i)]. *)
Theorem X27_until_implies_eventually sm path p q start_pos :
  until sm path p q start_pos = Ok true ->
  eventually sm path q start_pos = Ok true.
Proof. apply until_loop_eventually. Qed.

Lemma X27_until_implies_eventually_witness :
  eventually example_system ["idle"; "requesting"; "processing"; "responding"] "ack" 1 = Ok true.
Proof. apply (X27_until_implies_eventually _ _ "active"). vm_compute. reflexivity. Defined.

Lemma globally_loop_drop sm rest p k :
  globally_loop sm rest p = Ok true -> globally_loop sm (drop k rest) p = Ok true.
Proof.
  revert rest. induction k as [|k IH]; intros rest; [by rewrite drop_0|].
  destruct rest as [|state rest]; [done|]. simpl.
  intros [b [Hb H]]%run_bind_Ok_inv.
  destruct b; simpl in H; [by apply IH | discriminate].
Qed.

(** X28: when [globally(path, p, i)] answers [True], it answers [True]
    from every later position too, and [eventually(path, p, i)] answers
    [True] provided position [i] is in the path. *)
Theorem X28_globally_consequences sm path p i :
  globally sm path p i = Ok true ->
  (forall j, i <= j -> globally sm path p j = Ok true) /\
  (i < length path -> eventually sm path p i = Ok true).
Proof.
  unfold globally, eventually. intros H. split.
  - intros j Hj. replace j with (i + (j - i)) by lia.
    rewrite <- drop_drop. by apply globally_loop_drop.
  - intros Hi. destruct (drop i path) as [|state rest] eqn:Hd.
    + apply (f_equal length) in Hd. rewrite length_drop in Hd. simpl in Hd. lia.
    + simpl in *. apply run_bind_Ok_inv in H as [b [Hb H]]. rewrite Hb, run_bind_Ok.
      destruct b; [done | discriminate].
Qed.

Lemma X28_globally_consequences_witness :
  (forall j, 1 <= j ->
     globally example_system ["idle"; "requesting"; "processing"] "req" j = Ok true) /\
  (1 < length ["idle"; "requesting"; "processing"] ->
     eventually example_system ["idle"; "requesting"; "processing"] "req" 1 = Ok true).
Proof. apply X28_globally_consequences. vm_compute. reflexivity. Defined.

(** ** Branching time *)

Lemma every_some_successor rec1 rec2 successors :
  (forall next, rec1 next = Ok true -> rec2 next = Ok true) ->
  successors <> [] ->
  every_successor rec1 successors = Ok true ->
  some_successor rec2 successors = Ok true.
Proof.
  intros Hrec Hne. destruct successors as [|next rest]; [done|]. simpl.
  intros [b [Hb H]]%run_bind_Ok_inv.
  destruct b; simpl in H; [|discriminate].
  by rewrite (Hrec _ Hb), run_bind_Ok.
Qed.

(** X29: when [all_eventually] answers [True] for a state, a proposition
    and a set of visited states, so does [exists_eventually]. *)
Theorem X29_all_eventually_implies_exists fuel sm state p visited :
  all_eventually fuel sm state p visited = Ok true ->
  exists_eventually fuel sm state p visited = Ok true.
Proof.
  revert state visited. induction fuel as [|fuel IH]; intros state visited; [discriminate|].
  simpl. destruct (bool_decide (state ∈ visited)); [done|].
  intros [b [Hb H]]%run_bind_Ok_inv. rewrite Hb, run_bind_Ok.
  destruct b; [done|].
  destruct (get_successors sm state) as [|next rest] eqn:Hs; [discriminate|].
  revert H. apply every_some_successor; [|done]. intros n. apply IH.
Qed.

Lemma X29_all_eventually_implies_exists_witness :
  exists_eventually 3 example_system "idle" "active" ∅ = Ok true.
Proof. apply X29_all_eventually_implies_exists. vm_compute. reflexivity. Defined.

(** X30: in a state machine where every known state has a successor,
    when [all_globally] answers [True], so does [exists_globally]. *)
Theorem X30_all_globally_implies_exists fuel sm state p visited :
  (forall st, is_Some (states sm !! st) -> get_successors sm st <> []) ->
  all_globally fuel sm state p visited = Ok true ->
  exists_globally fuel sm state p visited = Ok true.
Proof.
  intros Htotal. revert state visited.
  induction fuel as [|fuel IH]; intros state visited; [discriminate|].
  simpl. intros [b [Hb H]]%run_bind_Ok_inv. rewrite Hb, run_bind_Ok.
  destruct b; simpl in *; [|done].
  destruct (bool_decide (state ∈ visited)); [done|].
  revert H. apply every_some_successor; [intros n; apply IH|].
  apply Htotal. unfold has_prop in Hb. by destruct (states sm !! state).
Qed.

Lemma X30_all_globally_implies_exists_witness :
  exists_globally 3 turn_system "a" "p" ∅ = Ok true.
Proof.
  apply X30_all_globally_implies_exists; [|vm_compute; reflexivity].
  intros st [x Hx].
  destruct (decide (st = "a")) as [->|Ha]; [vm_compute; discriminate|].
  destruct (decide (st = "b")) as [->|Hb]; [vm_compute; discriminate|].
  unfold turn_system, add_transition, add_state, StateMachine_init in Hx.
  cbn [states] in Hx.
  rewrite !lookup_insert_ne in Hx by done. rewrite lookup_empty in Hx. discriminate.
Defined.
